(** * js-secure-uploader: a shallow embedding of the streaming SHA-1 engine,
    the chunked upload session and the receiving script.

  The development follows the sources:
  - [lib/hashes/sha1.js]      : module [Sha1];
  - [lib/js-secure-uploader.js] : modules [Uploader] and [Request];
  - [lib/js-secure-uploader-worker.js] : module [Worker];
  - the PHP receiving script  : module [Receiver].

  JavaScript numbers are modelled by [Z] (every number met here is an
  integer far below 2^53, where doubles are exact); the 32-bit bitwise
  operators are written out with their [ToInt32] / [ToUint32]
  conversions.  A JavaScript string is the list of its character codes. *)

From Stdlib Require Import ZArith Lia ZifyNat String Ascii.
From stdpp Require Import base tactics option list strings gmap sorting.

Local Open Scope Z_scope.

(** ** JavaScript numbers and strings *)

Module JS.

(** ECMAScript ToInt32 / ToUint32 on an integral number. *)
Definition ToInt32 (x : Z) : Z := (x + 2 ^ 31) mod 2 ^ 32 - 2 ^ 31.
Definition ToUint32 (x : Z) : Z := x mod 2 ^ 32.

(** [a << n], [a >>> n], [a | b], [a & b], [a ^ b], [~a]. *)
Definition shl (a n : Z) : Z := ToInt32 (Z.shiftl (ToInt32 a) (ToUint32 n mod 32)).
Definition shru (a n : Z) : Z := Z.shiftr (ToUint32 a) (ToUint32 n mod 32).
Definition bor (a b : Z) : Z := Z.lor (ToInt32 a) (ToInt32 b).
Definition band (a b : Z) : Z := Z.land (ToInt32 a) (ToInt32 b).
Definition bxor (a b : Z) : Z := Z.lxor (ToInt32 a) (ToInt32 b).
Definition bnot (a : Z) : Z := Z.lnot (ToInt32 a).

(** [a % b] is the truncated remainder; [Math.floor (a / b)] is [a / b]. *)
Definition rem (a b : Z) : Z := Z.rem a b.

(** A string is the sequence of its character codes. *)
Abbreviation jsstring := (list Z).

(** [s.charCodeAt (i)]; [None] stands for NaN. *)
Definition charCodeAt (s : jsstring) (i : nat) : option Z := s !! i.

(** NaN and undefined become 0 when they reach a bitwise operator. *)
Definition nan0 (o : option Z) : Z := default 0 o.

(** [a[i]] read where the value only feeds a bitwise operator or where
    the index is known to be in range. *)
Definition array_get (a : list Z) (i : nat) : Z := nan0 (a !! i).

(** [a[i] = v]: replaces in range, extends the array at its end. *)
Definition array_set (a : list Z) (i : nat) (v : Z) : list Z :=
  if decide (i < length a)%nat then <[i := v]> a
  else a ++ replicate (i - length a) 0 ++ [v].

(** A string literal as a JavaScript string. *)
Definition str (s : string) : jsstring :=
  (λ a, Z.of_N (N_of_ascii a)) <$> list_ascii_of_string s.

(** One hexadecimal digit, as a character code. *)
Definition hexDigit (n : Z) : Z :=
  if n <? 10 then 48 + n else 87 + n.

(** [n.toString (16)] for an integer [n]. *)
Fixpoint toString16_go (fuel : nat) (n : Z) (acc : jsstring) : jsstring :=
  match fuel with
  | O => acc
  | S fuel =>
      let acc := hexDigit (n mod 16) :: acc in
      if n / 16 =? 0 then acc else toString16_go fuel (n / 16) acc
  end.
Definition toString16 (n : Z) : jsstring :=
  if n <? 0 then 45 :: toString16_go (S (Z.to_nat (Z.log2 (- n)))) (- n) []
  else toString16_go (S (Z.to_nat (Z.log2 n))) n [].

(** Exceptions. *)
Inductive Error : Type := MkError (message : string).

Inductive completion (A : Type) : Type :=
| Normal (a : A)
| Throw (e : Error).
Global Arguments Normal {A} a.
Global Arguments Throw {A} e.

Definition bind {A B} (c : completion A) (k : A → completion B) : completion B :=
  match c with
  | Normal a => k a
  | Throw e => Throw e
  end.

End JS.

(** ** lib/hashes/sha1.js *)

Module Sha1.
Import JS.

Record results : Type := Results { h0 : Z; h1 : Z; h2 : Z; h3 : Z; h4 : Z }.

(** The instance.  [feed_replaced] records that [finalize] has installed
    the throwing [feed] on the instance, which then shadows
    [Sha1.prototype.feed]. *)
Record t : Type := Instance {
  aResults : results;
  aLastBlock : option (list Z);
  nAccumulatedMessageLength : Z;
  feed_replaced : bool
}.

(** [new Sha1 ()]. *)
Definition new : t :=
  {| aResults := {| h0 := 0x67452301; h1 := 0xEFCDAB89; h2 := 0x98BADCFE;
                    h3 := 0x10325476; h4 := 0xC3D2E1F0 |};
     aLastBlock := None;
     nAccumulatedMessageLength := 0;
     feed_replaced := false |}.

(** [Sha1.logicalFunctions] and [Sha1.constants]. *)
Definition logicalFunctions : list (Z → Z → Z → Z) :=
  [ (λ nChunkB nChunkC nChunkD,
       bor (band nChunkB nChunkC) (band (bnot nChunkB) nChunkD));
    (λ nChunkB nChunkC nChunkD, bxor (bxor nChunkB nChunkC) nChunkD);
    (λ nChunkB nChunkC nChunkD,
       bor (bor (band nChunkB nChunkC) (band nChunkB nChunkD))
           (band nChunkC nChunkD));
    (λ nChunkB nChunkC nChunkD, bxor (bxor nChunkB nChunkC) nChunkD) ].

Definition constants : list Z :=
  [ 0x5A827999; 0x6ED9EBA1; 0x8F1BBCDC; 0xCA62C1D6 ].

Definition leftRotate (nInput nOffset : Z) : Z :=
  bor (shl nInput nOffset) (shru nInput (32 - nOffset)).

Definition createEmptyBlock : list Z := replicate 16 0.

(** [utf8Encode]: the two [replace] passes, character by character. *)
Definition utf8Encode (sInput : jsstring) : jsstring :=
  let pass1 :=
    mbind (M := list) (λ nCharcode,
      if (0x80 <=? nCharcode) && (nCharcode <=? 0x7ff)
      then [ bor 0xc0 (Z.shiftr nCharcode 6); bor 0x80 (band nCharcode 0x3f) ]
      else [ nCharcode ]) sInput in
  mbind (M := list) (λ nCharcode,
    if (0x800 <=? nCharcode) && (nCharcode <=? 0xffff)
    then [ bor 0xe0 (Z.shiftr nCharcode 12);
           bor 0x80 (band (Z.shiftr nCharcode 6) 0x3F);
           bor 0x80 (band nCharcode 0x3f) ]
    else [ nCharcode ]) pass1.

(** One word of [chunk]: four character codes starting at offset [k]. *)
Definition chunkWord (sInput : jsstring) (k : nat) : Z :=
  bor (bor (bor (shl (nan0 (charCodeAt sInput k)) 24)
                (shl (nan0 (charCodeAt sInput (k + 1))) 16))
           (shl (nan0 (charCodeAt sInput (k + 2))) 8))
      (nan0 (charCodeAt sInput (k + 3))).

(** [chunk]: [nBlocks = Math.ceil ((length / 4) / 16)]. *)
Definition chunk (sInput : jsstring) : list (list Z) :=
  let nBlocks := ((length sInput + 63) / 64)%nat in
  (λ i, (λ j, chunkWord sInput (i * 64 + j * 4)) <$> seq 0 16) <$> seq 0 nBlocks.

(** The message schedule: words 16..79 are written into the block. *)
Definition extendWord (aWord : list Z) (j : nat) : list Z :=
  let aWord :=
    array_set aWord j
      (bxor (bxor (bxor (array_get aWord (j - 3)) (array_get aWord (j - 8)))
                  (array_get aWord (j - 14)))
            (array_get aWord (j - 16))) in
  array_set aWord j (leftRotate (array_get aWord j) 1).

(** The five working variables of one block. *)
Record chunks : Type :=
  Chunks { nChunkA : Z; nChunkB : Z; nChunkC : Z; nChunkD : Z; nChunkE : Z }.

Definition round (aWord : list Z) (c : chunks) (j : nat) : chunks :=
  let nFunctionIndex := (j / 20)%nat in
  let nTemp :=
    default (λ _ _ _, 0) (logicalFunctions !! nFunctionIndex)
      (nChunkB c) (nChunkC c) (nChunkD c) in
  let nCurrentConstant := nan0 (constants !! nFunctionIndex) in
  let nTemp :=
    leftRotate (nChunkA c) 5 + nTemp + nChunkE c + nCurrentConstant
    + array_get aWord j in
  let nTemp := band nTemp 0xffffffff in
  {| nChunkE := nChunkD c;
     nChunkD := nChunkC c;
     nChunkC := leftRotate (nChunkB c) 30;
     nChunkB := nChunkA c;
     nChunkA := nTemp |}.

(** The body of the loop over blocks in [feedHashWithBlocks]. *)
Definition feedHashWithBlock (r : results) (aWord : list Z) : results :=
  let c := {| nChunkA := h0 r; nChunkB := h1 r; nChunkC := h2 r;
              nChunkD := h3 r; nChunkE := h4 r |} in
  let aWord := foldl extendWord aWord (seq 16 64) in
  let c := foldl (round aWord) c (seq 0 80) in
  {| h0 := band (h0 r + nChunkA c) 0xffffffff;
     h1 := band (h1 r + nChunkB c) 0xffffffff;
     h2 := band (h2 r + nChunkC c) 0xffffffff;
     h3 := band (h3 r + nChunkD c) 0xffffffff;
     h4 := band (h4 r + nChunkE c) 0xffffffff |}.

Definition feedHashWithBlocks (aWords : list (list Z)) (r : results) : results :=
  foldl feedHashWithBlock r aWords.

Definition extractBlock (aBlock : list Z) (nLengthPayload : Z) : jsstring :=
  let nLastUsedWord := nLengthPayload / 4 in
  let nLastUsedByteInWord := nLengthPayload - nLastUsedWord * 4 - 1 in
  if nLengthPayload =? 0 then []
  else
    mbind (M := list) (λ i : nat,
      let nLastByte :=
        if Z.of_nat i =? nLastUsedWord then nLastUsedByteInWord else 3 in
      (λ j : nat, band (shru (array_get aBlock i) (24 - Z.of_nat j * 8)) 0xff)
        <$> seq 0 (Z.to_nat (nLastByte + 1)))
      (seq 0 (Z.to_nat (nLastUsedWord + 1))).

Definition padLastBlock (nLength : Z) (aLastBlock : list Z) : list (list Z) :=
  let aReturn : list (list Z) := [] in
  let nPaddingByteByte := rem nLength 4 in
  let nPaddingByteWord := rem (nLength / 4) 16 in
  let '(aReturn, aLastBlock, nPaddingByteWord, nPaddingByteByte) :=
    if (0 =? nPaddingByteWord) && (0 =? nPaddingByteByte)
    then (aReturn ++ [aLastBlock], createEmptyBlock, 0, 0)
    else (aReturn, aLastBlock, nPaddingByteWord, nPaddingByteByte) in
  let aLastBlock :=
    array_set aLastBlock (Z.to_nat nPaddingByteWord)
      (bor (array_get aLastBlock (Z.to_nat nPaddingByteWord))
           (shl 0x80 (24 - nPaddingByteByte * 8))) in
  let '(aReturn, aLastBlock) :=
    if 13 <? nPaddingByteWord
    then (aReturn ++ [aLastBlock], createEmptyBlock)
    else (aReturn, aLastBlock) in
  let aLastBlock := array_set aLastBlock 14 (nLength / 2 ^ 29) in
  let aLastBlock := array_set aLastBlock 15 (band (nLength * 8) 0xffffffff) in
  aReturn ++ [aLastBlock].

Definition binaryToHexString (nInput : Z) : jsstring :=
  foldl (λ sOutput i, sOutput ++ toString16 (band (shru nInput (Z.of_nat i * 4)) 0xf))
        [] (reverse (seq 0 8)).

Definition formatHashHex (this : t) : jsstring :=
  binaryToHexString (h0 (aResults this)) ++
  binaryToHexString (h1 (aResults this)) ++
  binaryToHexString (h2 (aResults this)) ++
  binaryToHexString (h3 (aResults this)) ++
  binaryToHexString (h4 (aResults this)).

Definition formatHashBinary (this : t) : jsstring :=
  let aParts := [ h0 (aResults this); h1 (aResults this); h2 (aResults this);
                  h3 (aResults this); h4 (aResults this) ] in
  foldl (λ sHash i,
      foldl (λ sHash j,
          sHash ++ [ band (shru (array_get aParts i) (24 - Z.of_nat j * 8)) 0xff ])
        sHash (seq 0 4))
    [] (seq 0 5).

(** The body of [Sha1.prototype.feed]. *)
Definition prototype_feed (sInput : jsstring) (bUnicode : bool) (this : t) : t :=
  match sInput with
  | [] => this
  | _ =>
      let sInput := if bUnicode then utf8Encode sInput else sInput in
      let sFeed :=
        match aLastBlock this with
        | Some aLast =>
            let nMod := rem (nAccumulatedMessageLength this) 64 in
            extractBlock aLast (if nMod =? 0 then 64 else nMod) ++ sInput
        | None => sInput
        end in
      let aWords := chunk sFeed in
      {| aLastBlock := last aWords;
         nAccumulatedMessageLength :=
           nAccumulatedMessageLength this + Z.of_nat (length sInput);
         aResults := feedHashWithBlocks (removelast aWords) (aResults this);
         feed_replaced := feed_replaced this |}
  end.

(** The function [finalize] installs on the instance. *)
Definition InvalidState : Error :=
  MkError "You cannot feed an already finalized hash again.".

(** The call [this.feed (sInput, bUnicode)]: the instance's own [feed] when
    there is one, the prototype's otherwise. *)
Definition feed (sInput : jsstring) (bUnicode : bool) (this : t) : completion t :=
  if feed_replaced this then Throw InvalidState
  else Normal (prototype_feed sInput bUnicode this).

Definition finalize (bRaw : bool) (this : t) : jsstring * t :=
  let this :=
    match aLastBlock this with
    | Some aLast =>
        {| aResults :=
             feedHashWithBlocks
               (padLastBlock (nAccumulatedMessageLength this) aLast)
               (aResults this);
           aLastBlock := None;
           nAccumulatedMessageLength := nAccumulatedMessageLength this;
           feed_replaced := feed_replaced this |}
    | None => this
    end in
  let this :=
    {| aResults := aResults this;
       aLastBlock := aLastBlock this;
       nAccumulatedMessageLength := nAccumulatedMessageLength this;
       feed_replaced := true |} in
  (if bRaw then formatHashBinary this else formatHashHex this, this).

(** A sequence of [feed] calls on one instance. *)
Definition feeds (aInputs : list jsstring) (this : t) : completion t :=
  foldl (λ c sInput, bind c (feed sInput false)) (Normal this) aInputs.

(** [new Sha1 ().feed (...) ... .finalize (bRaw)]. *)
Definition digest (aInputs : list jsstring) (bRaw : bool) : completion jsstring :=
  bind (feeds aInputs new) (λ this, Normal (finalize bRaw this).1).

End Sha1.


(** ** lib/js-secure-uploader.js and the worker *)

Module Uploader.

(** [SecureUploaderSettings]: [chunk_size || 102400] ([None] is an absent or
    undefined setting; 0 is falsy as well). *)
Definition SecureUploaderSettings (chunk_size : option Z) : Z :=
  match chunk_size with
  | Some n => if n =? 0 then 102400 else n
  | None => 102400
  end.

(** The message posted to the worker.  The [file] field is represented by
    the size of the file, the only property the planning reads. *)
Record message : Type := Message {
  file_size : Z;
  offset : Z;
  chunkSize : Z;
  last : bool
}.

(** The worker's response.  [entire_size] is present on the last piece only.
    The fields [binary] and [hash] (and [entire_hash]) carry the bytes read
    and their digests; retry and planning never look at them. *)
Record oResult : Type := Result {
  res_offset : Z;
  res_size : Z;
  res_entire_size : option Z
}.

(** The worker's message handler. *)
Definition onmessage (oEvent : message) : oResult :=
  let nFileSize := file_size oEvent in
  let nChunkSize := chunkSize oEvent in
  let nOffset := offset oEvent in
  let bLast := last oEvent in
  {| res_offset := nOffset;
     res_size := Z.min nChunkSize (nFileSize - nOffset);
     res_entire_size := if bLast then Some nFileSize else None |}.

(** [SecureUploaderFile].  [oRequest] is the transfer in flight, identified
    by the result it sends; [bFinished] records that [getProgressPercentage]
    was replaced by the constant 1. *)
Record t : Type := File {
  nOffset : Z;
  nChunksize : Z;
  oFile_size : Z;
  nRetriesLeft : Z;
  oRequest : option oResult;
  bFinished : bool
}.

(** [new SecureUploaderFile (oFile, oSettings)]. *)
Definition new (size : Z) (chunk_size : Z) : t :=
  {| nOffset := 0;
     nChunksize := chunk_size;
     oFile_size := size;
     nRetriesLeft := 3;
     oRequest := None;
     bFinished := false |}.

(** [processNextChunk]: the returned boolean, the message posted to the
    worker (if any) and the instance afterwards. *)
Definition processNextChunk (this : t) : bool * option message * t :=
  if nOffset this >=? oFile_size this then (false, None, this)
  else
    (true,
     Some {| file_size := oFile_size this;
             offset := nOffset this;
             chunkSize := nChunksize this;
             last := nOffset this + nChunksize this >=? oFile_size this |},
     {| nOffset := nOffset this + nChunksize this;
        nChunksize := nChunksize this;
        oFile_size := oFile_size this;
        nRetriesLeft := nRetriesLeft this;
        oRequest := oRequest this;
        bFinished := bFinished this |}).

(** [uploadChunk]: a request for [oResult] is created and started. *)
Definition uploadChunk (r : oResult) (this : t) : t :=
  {| nOffset := nOffset this;
     nChunksize := nChunksize this;
     oFile_size := oFile_size this;
     nRetriesLeft := nRetriesLeft this;
     oRequest := Some r;
     bFinished := bFinished this |}.

(** Posting a message: the worker answers and its [onmessage] handler on the
    page calls [uploadChunk] with the answer. *)
Definition postMessage (m : option message) (this : t) : t :=
  match m with
  | Some m => uploadChunk (onmessage m) this
  | None => this
  end.

(** [start]. *)
Definition start (this : t) : t :=
  let '(_, m, this) := processNextChunk this in
  postMessage m this.

(** The callback [uploadChunk] hands to the request for [r], called with the
    outcome of the transfer. *)
Definition fpFinish (r : oResult) (bSuccess : bool) (this : t) : t :=
  let this :=
    {| nOffset := nOffset this;
       nChunksize := nChunksize this;
       oFile_size := oFile_size this;
       nRetriesLeft := nRetriesLeft this;
       oRequest := None;
       bFinished := bFinished this |} in
  if bSuccess then
    match processNextChunk this with
    | (false, _, this) =>
        {| nOffset := nOffset this;
           nChunksize := nChunksize this;
           oFile_size := oFile_size this;
           nRetriesLeft := nRetriesLeft this;
           oRequest := oRequest this;
           bFinished := true |}
    | (true, m, this) => postMessage m this
    end
  else if negb (nRetriesLeft this =? 0) then
    uploadChunk r
      {| nOffset := nOffset this;
         nChunksize := nChunksize this;
         oFile_size := oFile_size this;
         nRetriesLeft := nRetriesLeft this - 1;
         oRequest := oRequest this;
         bFinished := bFinished this |}
  else this.

(** One transfer of the request in flight concludes with [bSuccess]. *)
Definition step (this : t) (bSuccess : bool) : t :=
  match oRequest this with
  | Some r => fpFinish r bSuccess this
  | None => this
  end.

(** A session: the outcomes of the successive transfers. *)
Definition run (outcomes : list bool) (this : t) : t := foldl step this outcomes.

(** The chunks of a session in which every transfer succeeds: the answers of
    the worker to the successive messages.  [None] when [fuel] calls of
    [processNextChunk] do not reach the end of the file. *)
Fixpoint planFrom (fuel : nat) (this : t) : option (list oResult) :=
  match fuel with
  | O => None
  | S fuel =>
      match processNextChunk this with
      | (true, Some m, this) => (onmessage m ::.) <$> planFrom fuel this
      | _ => Some []
      end
  end.

Definition plan (totalSize chunkSize : Z) : option (list oResult) :=
  planFrom (S (Z.to_nat totalSize)) (new totalSize chunkSize).

(** The decimal digit [d] and the decimal representation of a non-negative
    integer: what the number [nOffset] becomes when [createDataPart] joins
    it into the request body. *)
Definition digit (d : Z) : ascii := ascii_of_N (Z.to_N (48 + d)).

Fixpoint decimal_go (fuel : nat) (n : Z) (acc : string) : string :=
  match fuel with
  | O => acc
  | S fuel =>
      let acc := String (digit (n mod 10)) acc in
      if n / 10 =? 0 then acc else decimal_go fuel (n / 10) acc
  end.

Definition decimal (n : Z) : string :=
  decimal_go (S (Z.to_nat (Z.log2 n))) n "".

End Uploader.

(** ** The receiving script (examples/upload.php)

    Creating the directory, moving the uploaded file and opening files are
    taken to succeed; [trigger_error] with [E_USER_ERROR] ends the script
    after [send_500] has set the status.  File names are compared as [==]
    and [sort ()] compare strings: as numbers when both are numeric
    strings, byte by byte otherwise.  How PHP compares the numbers is a
    parameter of the script. *)

Module Receiver.

(** The files of one directory, and the directories under [chunks/]. *)
Abbreviation directory := (gmap string (list Z)).
Abbreviation filesystem := (gmap string (gmap string (list Z))).

(** The fields of a submission: [$_POST] and [$_FILES['chunk']].
    [name] is [basename ($_FILES['chunk']['name'])], [tmp] the contents of
    the uploaded temporary file. *)
Record submission : Type := Submission {
  guid : string;
  offset : string;
  hash : string;
  entire_hash : option string;
  name : string;
  tmp : list Z
}.

Inductive status : Type :=
| Status200
| Status500 (errstr : string).

Fixpoint zeros (n : nat) : string :=
  match n with
  | O => ""
  | S n => String "0" (zeros n)
  end.

(** [sprintf ('%015s', s)]: left-padded with zeros to 15 characters. *)
Definition sprintf_015s (s : string) : string :=
  zeros (15 - String.length s) +:+ s.

Definition lower (c : ascii) : ascii :=
  let n := nat_of_ascii c in
  if (65 <=? n)%nat && (n <=? 90)%nat then ascii_of_nat (n + 32) else c.

Fixpoint strtolower (s : string) : string :=
  match s with
  | EmptyString => EmptyString
  | String c s => String (lower c) (strtolower s)
  end.

(** The characters PHP's numeric strings are made of, over its versions:
    white space, the signs, the digits, the point, the exponent letter and,
    before PHP 7, the hexadecimal digits and their prefix letter.  A string
    with any other character is not numeric. *)
Definition numeral_char (c : ascii) : bool :=
  let n := nat_of_ascii c in
  ((9 <=? n)%nat && (n <=? 13)%nat) || (n =? 32)%nat
  || (n =? 43)%nat || (n =? 45)%nat || (n =? 46)%nat
  || ((48 <=? n)%nat && (n <=? 57)%nat)
  || ((65 <=? n)%nat && (n <=? 70)%nat) || (n =? 88)%nat
  || ((97 <=? n)%nat && (n <=? 102)%nat) || (n =? 120)%nat.

Fixpoint numeral (s : string) : bool :=
  match s with
  | EmptyString => true
  | String c s => numeral_char c && numeral s
  end.

(** [$target_name]. *)
Definition target_name (name offset : string) : string :=
  name +:+ "." +:+ sprintf_015s offset.

(** [move_uploaded_file] into the session's directory. *)
Definition move_uploaded_file (tmp : list Z) (target : string) (dir : directory)
  : directory :=
  <[target := tmp]> dir.

(** The names a [DirectoryIterator] yields (the model holds files only). *)
Definition scandir (dir : directory) : list string := (map_to_list dir).*1.

Section script.

(** PHP's comparison of two strings made of numeral characters only: as
    numbers, integers or doubles, when both are numeric strings, and byte
    by byte otherwise. *)
Variable compare_numerals : string → string → comparison.

(** PHP's hash_init ('sha1'), hash_update_stream, hash_final: the
    hexadecimal SHA-1 digest of a byte string. *)
Variable sha1 : list Z → string.

(** The comparison of two strings behind [==] and [sort ()].  A string
    with a character that is no numeral character is not numeric, and the
    comparison is then byte by byte. *)
Definition loose_compare (a b : string) : comparison :=
  if numeral a && numeral b then compare_numerals a b else String.compare a b.

(** [$a == $b] on strings. *)
Definition loose_eq (a b : string) : bool :=
  match loose_compare a b with
  | Eq => true
  | _ => false
  end.

Definition loose_leb (a b : string) : bool :=
  match loose_compare a b with
  | Gt => false
  | _ => true
  end.

(** [sort ()] with its default flags.  Where the comparison orders the
    names totally every sorting algorithm returns the same list; merge sort
    stands for PHP's own. *)
Definition sort (l : list string) : list string :=
  merge_sort (λ a b, Is_true (loose_leb a b)) l.

Definition combine_chunks (to_name : string) (dir : directory) : directory :=
  let chunk_list := filter (λ f, loose_eq to_name f = false) (scandir dir) in
  match chunk_list with
  | [chunk] =>
      match dir !! chunk with
      | Some contents => <[to_name := contents]> (delete chunk dir)
      | None => dir
      end
  | _ =>
      let chunk_list := sort chunk_list in
      let file := default [] (dir !! to_name) in
      let file :=
        foldl (λ file chunk, file ++ default [] (dir !! chunk)) file chunk_list in
      <[to_name := file]> dir
  end.

Definition clear_directory (exception : string) (dir : directory) : directory :=
  filter (λ '(f, _), loose_eq exception f = true) dir.

Definition sha1_hash_file (path : string) (dir : directory) : option string :=
  sha1 <$> dir !! path.

(** The script, from a submission and the directories under [chunks/] to
    the status sent and the directories afterwards. *)
Definition upload (r : submission) (fs : filesystem) : status * filesystem :=
  let target_dir := guid r in
  let target_path := target_name (name r) (offset r) in
  let dir := default ∅ (fs !! target_dir) in
  let dir := move_uploaded_file (tmp r) target_path dir in
  let fs := <[target_dir := dir]> fs in
  match sha1_hash_file target_path dir with
  | None => (Status500 "Unable to open file", fs)
  | Some chunk_hash =>
      if negb (String.eqb (strtolower chunk_hash) (strtolower (hash r)))
      then (Status500 "Hash mismatch for chunk.", fs)
      else
        match entire_hash r with
        | None => (Status200, fs)
        | Some entire =>
            let final_name := name r in
            let dir := combine_chunks final_name dir in
            let fs := <[target_dir := dir]> fs in
            match sha1_hash_file final_name dir with
            | None => (Status500 "Unable to open file", fs)
            | Some file_hash =>
                if negb (String.eqb (strtolower file_hash) (strtolower entire))
                then (Status500 "Hash mismatch for file.", fs)
                else (Status200, <[target_dir := clear_directory final_name dir]> fs)
            end
        end
  end.

End script.

(** The chunk store of a session: the files other than the final one. *)
Definition chunk_store (r : submission) (fs : filesystem) : directory :=
  delete (name r) (default ∅ (fs !! guid r)).

End Receiver.

(** ** Vocabulary of the properties *)

Import JS.

(** A binary string: every character code is a byte. *)
Definition is_binary (s : jsstring) : Prop := Forall (λ c, 0 ≤ c < 256) s.

(** The [i]-th block built by [Sha1.chunk]. *)
Definition block (s : jsstring) (i : nat) : list Z :=
  (λ j, Sha1.chunkWord s (i * 64 + j * 4)) <$> seq 0 16.

(** Number of characters in the last block of an [n]-character message,
    [n > 0]: the source's [(n % 64) || 64]. *)
Definition payload (n : nat) : nat := ((n - 1) mod 64 + 1)%nat.

(** The four bytes [Sha1.extractBlock] reads from one word. *)
Definition bytes4 (w : Z) : list Z :=
  (λ j : nat, band (shru w (24 - Z.of_nat j * 8)) 0xff) <$> seq 0 4.

(** The characters retained in [aLastBlock], as [feed] recovers them before
    it prepends them to the next input: the pending, not yet compressed
    part of the stream. *)
Definition pending (this : Sha1.t) : jsstring :=
  match Sha1.aLastBlock this with
  | Some aLast =>
      let nMod := rem (Sha1.nAccumulatedMessageLength this) 64 in
      Sha1.extractBlock aLast (if nMod =? 0 then 64 else nMod)
  | None => []
  end.

(** The instance after the characters [m] were fed to a fresh one. *)
Definition fed (m : jsstring) : Sha1.t :=
  match m with
  | [] => Sha1.new
  | _ =>
      let n := (length m - payload (length m))%nat in
      {| Sha1.aResults :=
           Sha1.feedHashWithBlocks (Sha1.chunk (take n m)) (Sha1.aResults Sha1.new);
         Sha1.aLastBlock := Some (block (drop n m) 0);
         Sha1.nAccumulatedMessageLength := Z.of_nat (length m);
         Sha1.feed_replaced := false |}
  end.

(** A binary string with every character code written as two lowercase
    hexadecimal digits. *)
Definition hexOfBinary (s : jsstring) : jsstring :=
  s ≫= (λ c, [hexDigit (c / 16); hexDigit (c mod 16)]).

(** A JavaScript string of bytes as a PHP string. *)
Definition to_string (s : jsstring) : string :=
  string_of_list_ascii ((λ c, ascii_of_N (Z.to_N c)) <$> s).

(** The digest computed by the page's [Sha1], as the hexadecimal string the
    receiving script compares. *)
Definition sha1_hex (contents : list Z) : string :=
  match Sha1.digest [contents] false with
  | Normal sHash => to_string sHash
  | Throw _ => ""
  end.

(** The chunks [l] tile the byte range from [lo] to [hi]: each starts where
    the previous one ends and none is empty. *)
Fixpoint tiles (lo : Z) (l : list Uploader.oResult) (hi : Z) : Prop :=
  match l with
  | [] => lo = hi
  | c :: l =>
      Uploader.res_offset c = lo ∧ 0 < Uploader.res_size c ∧
      tiles (lo + Uploader.res_size c) l hi
  end.

(** The chunks that carry the final flag. *)
Definition finals (l : list Uploader.oResult) : list Uploader.oResult :=
  filter (λ c, is_Some (Uploader.res_entire_size c)) l.

(** The chunk planning property as the specification states it. *)
Definition planned (totalSize chunkSize : Z) : Prop :=
  ∃ l, Uploader.plan totalSize chunkSize = Some l ∧
       tiles 0 l totalSize ∧
       Forall (λ c, is_Some (Uploader.res_entire_size c) ↔
                    Uploader.res_offset c + chunkSize >= totalSize) l ∧
       length (finals l) = 1%nat.

(** The retry counter is back at its full value whenever a successful
    transfer makes the session advance to another chunk. *)
Definition reset_on_advance (totalSize chunkSize : Z) (outcomes : list bool) : Prop :=
  let this := Uploader.run outcomes (Uploader.start (Uploader.new totalSize chunkSize)) in
  ∀ r r' : Uploader.oResult,
    Uploader.oRequest this = Some r →
    Uploader.oRequest (Uploader.step this true) = Some r' →
    Uploader.res_offset r ≠ Uploader.res_offset r' →
    Uploader.nRetriesLeft (Uploader.step this true) = 3.

(** The chunks, given as offset and contents, cover [source] from offset
    [lo] on: consecutive, none empty, their contents the slices of the
    source. *)
Fixpoint covers (lo : Z) (chunks : list (Z * list Z)) (source : list Z) : Prop :=
  match chunks with
  | [] => source = []
  | (o, c) :: chunks =>
      o = lo ∧ c ≠ [] ∧
      ∃ rest, source = c ++ rest ∧ covers (lo + Z.of_nat (length c)) chunks rest
  end.

(** Persisting the chunks in their order of arrival, each under the name
    built from the decimal offset the page sends. *)
Definition persist (name : string) (arrivals : list (Z * list Z))
    (dir : gmap string (list Z)) : gmap string (list Z) :=
  foldl (λ dir '(o, c),
      Receiver.move_uploaded_file c
        (Receiver.target_name name (Uploader.decimal o)) dir)
    dir arrivals.

(** The number of transfers that are sent again along a run. *)
Fixpoint retransmissions (outcomes : list bool) (this : Uploader.t) : Z :=
  match outcomes with
  | [] => 0
  | bSuccess :: outcomes =>
      (if negb bSuccess && bool_decide (is_Some (Uploader.oRequest this))
          && negb (Uploader.nRetriesLeft this =? 0)
       then 1 else 0)
      + retransmissions outcomes (Uploader.step this bSuccess)
  end.

(** The [k] low-order decimal digits of [n], most significant first, in
    front of [acc]. *)
Fixpoint fixed (k : nat) (n : Z) (acc : string) : string :=
  match k with
  | O => acc
  | S k => fixed k (n / 10) (String (Uploader.digit (n mod 10)) acc)
  end.

(** The name under which a chunk is stored. *)
Definition fname (name : string) (x : Z * list Z) : string :=
  Receiver.target_name name (Uploader.decimal x.1).

(** ** lib/js-secure-uploader-worker.js

    The worker reads the bytes of the chunk and hashes them.  A file is the
    binary string of its contents; [slice] and [webkitSlice] take a start
    and an end, as in the File API.  [readChunk] hands the bytes of the blob
    to its callback, whichever reader is available. *)

Module Worker.
Import JS.

(** [Blob.prototype.slice (start, end)], with the clamping of the File API. *)
Definition slice (oFile : jsstring) (nStart nEnd : Z) : jsstring :=
  let size := Z.of_nat (length oFile) in
  let relativeStart :=
    if nStart <? 0 then Z.max (size + nStart) 0 else Z.min nStart size in
  let relativeEnd :=
    if nEnd <? 0 then Z.max (size + nEnd) 0 else Z.min nEnd size in
  let span := Z.max (relativeEnd - relativeStart) 0 in
  take (Z.to_nat span) (drop (Z.to_nat relativeStart) oFile).

(** [sliceFile]; [bWebkit] is the outcome of the test
    ["undefined" === typeof oFile.slice && "undefined" !== typeof oFile.webkitSlice]. *)
Definition sliceFile (bWebkit : bool) (oFile : jsstring) (nOffset nLength : Z)
  : jsstring :=
  if bWebkit then slice oFile nOffset (nOffset + nLength)
  else slice oFile nOffset nLength.

(** The response posted to the page. *)
Record oResponse : Type := Response {
  offset : Z;
  size : Z;
  binary : jsstring;
  hash : jsstring;
  entire_size : option Z;
  entire_hash : option jsstring
}.

(** The message handler: the response posted and the instance [oSha1Whole]
    afterwards; an exception ends the handler before anything is posted. *)
Definition onmessage (bWebkit : bool) (oFile : jsstring)
    (oEvent : Uploader.message) (oSha1Whole : Sha1.t)
  : completion (oResponse * Sha1.t) :=
  let oSha1Chunk := Sha1.new in
  let nFileSize := Uploader.file_size oEvent in
  let nChunkSize := Uploader.chunkSize oEvent in
  let nOffset := Uploader.offset oEvent in
  let bLast := Uploader.last oEvent in
  let sBinary := sliceFile bWebkit oFile nOffset nChunkSize in
  bind (Sha1.feed sBinary false oSha1Chunk) (λ oSha1Chunk,
  bind (Sha1.feed sBinary false oSha1Whole) (λ oSha1Whole,
    let '(sHash, _) := Sha1.finalize false oSha1Chunk in
    if bLast then
      let '(sEntire, oSha1Whole) := Sha1.finalize false oSha1Whole in
      Normal ({| offset := nOffset;
                 size := Z.min nChunkSize (nFileSize - nOffset);
                 binary := sBinary;
                 hash := sHash;
                 entire_size := Some nFileSize;
                 entire_hash := Some sEntire |}, oSha1Whole)
    else
      Normal ({| offset := nOffset;
                 size := Z.min nChunkSize (nFileSize - nOffset);
                 binary := sBinary;
                 hash := sHash;
                 entire_size := None;
                 entire_hash := None |}, oSha1Whole))).

(** The responses of a session in which every transfer succeeds: the page
    posts the next message when the previous chunk is uploaded.  [None]
    when [fuel] messages do not reach the end of the file. *)
Fixpoint responsesFrom (fuel : nat) (bWebkit : bool) (oFile : jsstring)
    (this : Uploader.t) (oSha1Whole : Sha1.t)
  : option (completion (list oResponse)) :=
  match fuel with
  | O => None
  | S fuel =>
      match Uploader.processNextChunk this with
      | (true, Some m, this) =>
          match onmessage bWebkit oFile m oSha1Whole with
          | Normal (r, oSha1Whole) =>
              match responsesFrom fuel bWebkit oFile this oSha1Whole with
              | Some (Normal l) => Some (Normal (r :: l))
              | o => o
              end
          | Throw e => Some (Throw e)
          end
      | _ => Some (Normal [])
      end
  end.

Definition responses (bWebkit : bool) (oFile : jsstring) (chunkSize : Z)
  : option (completion (list oResponse)) :=
  responsesFrom (S (length oFile)) bWebkit oFile
    (Uploader.new (Z.of_nat (length oFile)) chunkSize) Sha1.new.

(** What the page keeps of a response for planning and retry. *)
Definition descriptor (r : oResponse) : Uploader.oResult :=
  {| Uploader.res_offset := offset r;
     Uploader.res_size := size r;
     Uploader.res_entire_size := entire_size r |}.

End Worker.

(** ** SecureUploaderRequest

    The fields [getData] writes into the body of the request, and the
    submission the script reads when the body arrives as sent.  The name of
    the file has no directory part, so [basename] leaves it unchanged. *)

Module Request.
Import JS.

(** A name without directory part: no slash and no backslash. *)
Fixpoint is_basename (s : string) : bool :=
  match s with
  | EmptyString => true
  | String c s =>
      negb (nat_of_ascii c =? 47)%nat && negb (nat_of_ascii c =? 92)%nat
      && is_basename s
  end.

Record t : Type := Request {
  sName : string;
  sGuid : string;
  sBinary : jsstring;
  nOffset : Z;
  nSize : Z;
  sHash : jsstring;
  nEntireSize : option Z;
  sEntireHash : option jsstring
}.

(** [new SecureUploaderRequest (oFile, sGuid, oSettings, oResult, fpFinish)];
    [None] is [null], the value of [oResult.entire_size || null] for an
    absent or zero size and of [oResult.entire_hash || null] for an absent or
    empty hash. *)
Definition new (sName sGuid : string) (oResult : Worker.oResponse) : t :=
  {| sName := sName;
     sGuid := sGuid;
     sBinary := Worker.binary oResult;
     nOffset := Worker.offset oResult;
     nSize := Worker.size oResult;
     sHash := Worker.hash oResult;
     nEntireSize :=
       match Worker.entire_size oResult with
       | Some n => if n =? 0 then None else Some n
       | None => None
       end;
     sEntireHash :=
       match Worker.entire_hash oResult with
       | Some [] => None
       | o => o
       end |}.

(** [getData], field by field.  The test before the fields of the whole
    file reads [this.nEntireHash], which is never assigned and so differs
    from [null]: the fields are written whenever [nEntireSize] is not
    [null], and a [null] hash is joined as the empty string. *)
Definition getData (this : t) : Receiver.submission :=
  {| Receiver.guid := sGuid this;
     Receiver.offset := Uploader.decimal (nOffset this);
     Receiver.hash := to_string (sHash this);
     Receiver.entire_hash :=
       match nEntireSize this with
       | Some _ => Some (to_string (default [] (sEntireHash this)))
       | None => None
       end;
     Receiver.name := sName this;
     Receiver.tmp := sBinary this |}.

End Request.


(** A lowercase hexadecimal digit, as a character code, and its value. *)
Definition is_hex (c : Z) : Prop := 48 ≤ c ≤ 57 ∨ 97 ≤ c ≤ 102.

Definition hexDigitValue (c : Z) : Z := if c <? 58 then c - 48 else c - 87.

(** The number written by a string of hexadecimal digits, and the number
    whose big-endian bytes a binary string holds. *)
Definition hexValue (s : jsstring) : Z :=
  foldl (λ acc c, acc * 16 + hexDigitValue c) 0 s.

Definition beValue (s : jsstring) : Z := foldl (λ acc c, acc * 256 + c) 0 s.

(** The five accumulators as one 160-bit number. *)
Definition accumulated (r : Sha1.results) : Z :=
  foldl (λ acc h, acc * 2 ^ 32 + ToUint32 h) 0
    [Sha1.h0 r; Sha1.h1 r; Sha1.h2 r; Sha1.h3 r; Sha1.h4 r].

(** The UTF-8 bytes of a character of the Basic Multilingual Plane. *)
Definition utf8_char (c : Z) : jsstring :=
  if c <? 0x80 then [c]
  else if c <? 0x800 then [192 + c / 64; 128 + c mod 64]
  else [224 + c / 4096; 128 + (c / 64) mod 64; 128 + c mod 64].

(** The eight big-endian bytes of a 64-bit number. *)
Definition be64 (v : Z) : jsstring :=
  (λ i, (v / 2 ^ (8 * i)) mod 256) <$> [7; 6; 5; 4; 3; 2; 1; 0].

(** The padding of RFC 3174 for a message of [n] bytes: the byte 0x80, the
    zeros that bring the length to 56 modulo 64, the length in bits. *)
Definition rfc_padding (n : nat) : jsstring :=
  128 :: replicate ((119 - n mod 64) mod 64) 0 ++ be64 (8 * Z.of_nat n).

(** The bytes held by a list of blocks. *)
Definition blockBytes (aWords : list (list Z)) : jsstring :=
  aWords ≫= (λ aBlock, aBlock ≫= bytes4).

(** A 32-bit signed integer; a block of sixteen of them. *)
Definition is_int32 (x : Z) : Prop := - 2 ^ 31 ≤ x < 2 ^ 31.

Definition is_block (aBlock : list Z) : Prop :=
  length aBlock = 16%nat ∧ Forall is_int32 aBlock.

(** The requests in flight when the successive outcomes arrive. *)
Fixpoint requests (outcomes : list bool) (this : Uploader.t)
  : list Uploader.oResult :=
  match outcomes with
  | [] => []
  | bSuccess :: outcomes =>
      option_list (Uploader.oRequest this)
      ++ requests outcomes (Uploader.step this bSuccess)
  end.

(** What the worker is expected to send for the chunk at [Worker.offset]. *)
Definition hashed (oFile : jsstring) (c : Z) (r : Worker.oResponse) : Prop :=
  Worker.binary r = take (Z.to_nat c) (drop (Z.to_nat (Worker.offset r)) oFile) ∧
  Z.of_nat (length (Worker.binary r)) = Worker.size r ∧
  Sha1.digest [Worker.binary r] false = Normal (Worker.hash r) ∧
  (∀ h, Worker.entire_hash r = Some h → Sha1.digest [oFile] false = Normal h).

(** The offset and the bytes of a response. *)
Definition part (r : Worker.oResponse) : Z * list Z :=
  (Worker.offset r, Worker.binary r).

(** The script run on the successive submissions: the statuses sent and the
    directories afterwards. *)
Fixpoint session (compare_numerals : string → string → comparison)
    (sha1 : list Z → string) (rs : list Receiver.submission)
    (fs : Receiver.filesystem) : list Receiver.status * Receiver.filesystem :=
  match rs with
  | [] => ([], fs)
  | r :: rs =>
      let '(s, fs) := Receiver.upload compare_numerals sha1 r fs in
      let '(st, fs) := session compare_numerals sha1 rs fs in
      (s :: st, fs)
  end.

(** A plain decimal numeral: digits, at least one, with at most one point
    among them.  [plain] reads it after [acc] and gives the digits as a
    number and how many of them follow the point; [seen] tells that a digit
    was read. *)
Fixpoint plain (s : string) (acc : Z) (k : option nat) (seen : bool)
  : option (Z * nat) :=
  match s with
  | EmptyString => if seen then Some (acc, default 0%nat k) else None
  | String c s =>
      let n := Z.of_nat (nat_of_ascii c) in
      if (48 <=? n) && (n <=? 57)
      then plain s (acc * 10 + (n - 48)) (S <$> k) true
      else if (n =? 46) && bool_decide (k = None)
      then plain s acc (Some 0%nat) seen
      else None
  end.

(** A comparison of numerals to run the script with: two plain decimal
    numerals are compared by their value, other strings byte by byte.  PHP
    compares the nearest doubles, and gives the same answer whenever the
    values are equal or differ by more than the rounding. *)
Definition by_value (a b : string) : comparison :=
  match plain a 0 None false, plain b 0 None false with
  | Some (m1, k1), Some (m2, k2) =>
      m1 * 10 ^ Z.of_nat k2 ?= m2 * 10 ^ Z.of_nat k1
  | _, _ => String.compare a b
  end.

(** The submission [r] carries the chunk [x] of the session [sGuid] for the
    file [sName], with the digest the script computes for its bytes. *)
Definition carries (sha1 : list Z → string) (sGuid sName : string)
    (x : Z * list Z) (r : Receiver.submission) : Prop :=
  Receiver.guid r = sGuid ∧ Receiver.name r = sName ∧
  Receiver.offset r = Uploader.decimal x.1 ∧ Receiver.tmp r = x.2 ∧
  Receiver.strtolower (sha1 (Receiver.tmp r))
  = Receiver.strtolower (Receiver.hash r).

(** ** Bit-level facts about the 32-bit operators *)

Section bits.
Import JS.

Lemma ToInt32_mod x : ToInt32 x mod 2 ^ 32 = x mod 2 ^ 32.
Proof.
  unfold ToInt32.
  rewrite <- Zminus_mod_idemp_l.
  rewrite Z.mod_mod by lia.
  rewrite Zminus_mod_idemp_l.
  replace (x + 2 ^ 31 - 2 ^ 31) with x by lia. done.
Qed.

Lemma ToInt32_range x : - 2 ^ 31 ≤ ToInt32 x < 2 ^ 31.
Proof. unfold ToInt32. pose proof (Z.mod_pos_bound (x + 2 ^ 31) (2 ^ 32)). lia. Qed.

Lemma ToInt32_small x : - 2 ^ 31 ≤ x < 2 ^ 31 → ToInt32 x = x.
Proof. intros. unfold ToInt32. rewrite Z.mod_small; lia. Qed.

Lemma ToInt32_idemp x : ToInt32 (ToInt32 x) = ToInt32 x.
Proof. apply ToInt32_small, ToInt32_range. Qed.

Lemma testbit_ToInt32 x n : 0 ≤ n < 32 → Z.testbit (ToInt32 x) n = Z.testbit x n.
Proof.
  intros Hn.
  rewrite <- (Z.mod_pow2_bits_low (ToInt32 x) 32 n) by lia.
  rewrite ToInt32_mod. apply Z.mod_pow2_bits_low. lia.
Qed.

Lemma testbit_ToUint32 x n : 0 ≤ n < 32 → Z.testbit (ToUint32 x) n = Z.testbit x n.
Proof. intros. apply Z.mod_pow2_bits_low. lia. Qed.

Lemma testbit_ToUint32_high x n : 32 ≤ n → Z.testbit (ToUint32 x) n = false.
Proof. intros. apply Z.mod_pow2_bits_high. lia. Qed.

Lemma testbit_byte_high c n : 0 ≤ c < 256 → 8 ≤ n → Z.testbit c n = false.
Proof.
  intros Hc Hn. destruct (decide (c = 0)) as [->|]; [apply Z.testbit_0_l|].
  apply Z.bits_above_log2; [lia|].
  assert (Z.log2 c < 8); [|lia]. apply Z.log2_lt_pow2; lia.
Qed.

Lemma testbit_255 n : 0 ≤ n → Z.testbit 255 n = bool_decide (n < 8).
Proof.
  intros. change 255 with (Z.ones 8). case_bool_decide.
  - apply Z.ones_spec_low; lia.
  - apply Z.ones_spec_high; lia.
Qed.

(** [(w >>> s) & 0xff] reads bits [s .. s+7] of [w]. *)
Lemma testbit_byteAt w s n :
  0 ≤ s → s + 8 ≤ 32 → 0 ≤ n →
  Z.testbit (band (shru w s) 0xff) n = bool_decide (n < 8) && Z.testbit w (n + s).
Proof.
  intros Hs Hs' Hn. unfold band, shru.
  replace (ToUint32 s mod 32) with s.
  2:{ unfold ToUint32. rewrite (Z.mod_small s (2 ^ 32)) by lia.
      rewrite Z.mod_small; lia. }
  change (ToInt32 255) with 255.
  rewrite Z.land_spec, testbit_255 by done.
  case_bool_decide; [|by rewrite andb_false_r].
  rewrite andb_true_r, testbit_ToInt32 by lia.
  rewrite Z.shiftr_spec by lia. rewrite testbit_ToUint32 by lia. by rewrite andb_true_l.
Qed.

Lemma testbit_shl a s n :
  0 ≤ s < 32 → 0 ≤ n < 32 →
  Z.testbit (shl a s) n = bool_decide (s ≤ n) && Z.testbit a (n - s).
Proof.
  intros Hs Hn. unfold shl.
  replace (ToUint32 s mod 32) with s.
  2:{ unfold ToUint32. rewrite (Z.mod_small s (2 ^ 32)) by lia.
      rewrite Z.mod_small; lia. }
  rewrite testbit_ToInt32 by lia. rewrite Z.shiftl_spec by lia.
  case_bool_decide.
  - rewrite testbit_ToInt32 by lia. done.
  - rewrite Z.testbit_neg_r by lia. done.
Qed.

Lemma testbit_bor a b n :
  0 ≤ n < 32 → Z.testbit (bor a b) n = Z.testbit a n || Z.testbit b n.
Proof. intros. unfold bor. by rewrite Z.lor_spec, !testbit_ToInt32. Qed.

(** The four character codes packed by [chunk] are read back by
    [extractBlock], provided they are bytes. *)
Lemma byteAt_pack c0 c1 c2 c3 (j : nat) :
  0 ≤ c0 < 256 → 0 ≤ c1 < 256 → 0 ≤ c2 < 256 → 0 ≤ c3 < 256 → (j < 4)%nat →
  band (shru (bor (bor (bor (shl c0 24) (shl c1 16)) (shl c2 8)) c3)
             (24 - Z.of_nat j * 8)) 0xff
  = nan0 ([c0; c1; c2; c3] !! j).
Proof.
  intros H0 H1 H2 H3 Hj. apply Z.bits_inj'. intros n Hn.
  rewrite testbit_byteAt by lia.
  case_bool_decide as Hn8; simpl.
  - rewrite !testbit_bor, !testbit_shl by lia.
    destruct j as [|[|[|[|j]]]]; [| | | |lia]; simpl;
      repeat case_bool_decide; try lia; simpl;
      rewrite ?(testbit_byte_high c0), ?(testbit_byte_high c1),
        ?(testbit_byte_high c2), ?(testbit_byte_high c3) by lia; simpl;
      rewrite ?orb_false_r; f_equal; lia.
  - destruct j as [|[|[|[|j]]]]; [| | | |lia]; simpl;
      symmetry; apply testbit_byte_high; lia.
Qed.

End bits.
(** ** Blocks of a binary string *)

(** [lia] with division and remainder by constants. *)
Ltac Zify.zify_post_hook ::= Z.to_euclidean_division_equations.

Section blocks.
Import JS Sha1.

Lemma is_binary_lookup s k : is_binary s → 0 ≤ nan0 (s !! k) < 256.
Proof.
  intros Hs. destruct (s !! k) as [c|] eqn:Hk; simpl; [|lia].
  by apply (Forall_lookup_1 _ _ _ _ Hs Hk).
Qed.

Lemma is_binary_app a b : is_binary a → is_binary b → is_binary (a ++ b).
Proof. apply Forall_app_2. Qed.

Lemma is_binary_drop n s : is_binary s → is_binary (drop n s).
Proof. apply Forall_drop. Qed.

Lemma byteAt_chunkWord s k (j : nat) :
  is_binary s → (j < 4)%nat →
  band (shru (chunkWord s k) (24 - Z.of_nat j * 8)) 0xff = nan0 (s !! (k + j)%nat).
Proof.
  intros Hs Hj. unfold chunkWord, charCodeAt.
  rewrite byteAt_pack by auto using is_binary_lookup.
  destruct j as [|[|[|[|j]]]]; [| | | |lia]; simpl; by rewrite ?Nat.add_0_r.
Qed.

Lemma chunkWord_app_l a b k :
  (k + 3 < length a)%nat → chunkWord (a ++ b) k = chunkWord a k.
Proof. intros. unfold chunkWord, charCodeAt. by rewrite !lookup_app_l by lia. Qed.

Lemma chunkWord_app_r a b k :
  chunkWord (a ++ b) (length a + k) = chunkWord b k.
Proof.
  unfold chunkWord, charCodeAt. rewrite !lookup_app_r by lia.
  repeat f_equal; lia.
Qed.

Lemma chunk_blocks s : chunk s = block s <$> seq 0 ((length s + 63) / 64).
Proof. done. Qed.

(** Blocks are cut at multiples of 64 characters. *)
Lemma chunk_app a b n :
  length a = (64 * n)%nat → chunk (a ++ b) = chunk a ++ chunk b.
Proof.
  intros Ha. rewrite !chunk_blocks, length_app.
  replace ((length a + length b + 63) / 64)%nat
    with (n + (length b + 63) / 64)%nat by lia.
  replace ((length a + 63) / 64)%nat with n by lia.
  rewrite seq_app, fmap_app. f_equal.
  - apply Forall_fmap_ext, Forall_seq. intros i Hi.
    apply Forall_fmap_ext, Forall_seq. intros j Hj.
    apply chunkWord_app_l. lia.
  - replace (seq (0 + n) ((length b + 63) / 64))
      with (Nat.add n <$> seq 0 ((length b + 63) / 64))
      by (rewrite fmap_add_seq; f_equal; lia).
    rewrite <- list_fmap_compose.
    apply Forall_fmap_ext, Forall_seq. intros i Hi. simpl.
    apply Forall_fmap_ext, Forall_seq. intros j Hj.
    replace ((n + i) * 64 + j * 4)%nat with (length a + (i * 64 + j * 4))%nat by lia.
    apply chunkWord_app_r.
Qed.

Lemma chunk_short d : (1 ≤ length d ≤ 64)%nat → chunk d = [block d 0].
Proof.
  intros Hd. rewrite chunk_blocks.
  by replace ((length d + 63) / 64)%nat with 1%nat by lia.
Qed.

(** All blocks but the last one are complete; the last one holds the last
    [payload] characters. *)
Lemma chunk_split s :
  s ≠ [] →
  chunk s = chunk (take (length s - payload (length s)) s)
            ++ [block (drop (length s - payload (length s)) s) 0].
Proof.
  intros Hs. assert (0 < length s)%nat by (destruct s; simpl; [done|lia]).
  unfold payload.
  rewrite <- (take_drop (length s - ((length s - 1) mod 64 + 1)) s) at 1.
  rewrite (chunk_app _ _ ((length s - 1) / 64)).
  - f_equal. apply chunk_short. rewrite length_drop. lia.
  - rewrite length_take. lia.
Qed.

Lemma extractBlock_take (aBlock : list Z) (p : nat) :
  length aBlock = 16%nat → (1 ≤ p ≤ 64)%nat →
  extractBlock aBlock (Z.of_nat p) = take p (aBlock ≫= bytes4).
Proof.
  intros Hlen Hp.
  do 17 (destruct aBlock as [|? aBlock]; try discriminate Hlen). clear Hlen.
  do 65 (destruct p as [|p]; [first [lia|reflexivity]|]). lia.
Qed.

Lemma block_bytes d :
  is_binary d → block d 0 ≫= bytes4 = (λ i, nan0 (d !! i)) <$> seq 0 64.
Proof.
  intros Hd. unfold block, bytes4.
  cbn [seq fmap list_fmap mbind list_bind app Nat.add Nat.mul].
  rewrite !byteAt_chunkWord by (done || lia). reflexivity.
Qed.

Lemma take_lookups (d : list Z) n :
  (length d ≤ n)%nat → take (length d) ((λ i, nan0 (d !! i)) <$> seq 0 n) = d.
Proof.
  intros Hn. apply list_eq. intros i.
  destruct (decide (i < length d)%nat) as [Hi|Hi].
  - rewrite lookup_take_lt by done. rewrite list_lookup_fmap, lookup_seq_lt by lia.
    simpl. destruct (lookup_lt_is_Some_2 d i Hi) as [x Hx]. by rewrite Hx.
  - rewrite lookup_take_ge by lia. by rewrite lookup_ge_None_2 by lia.
Qed.

(** [extractBlock] restores the characters the last block was cut from. *)
Lemma extractBlock_block d :
  is_binary d → (1 ≤ length d ≤ 64)%nat →
  extractBlock (block d 0) (Z.of_nat (length d)) = d.
Proof.
  intros Hd Hlen. rewrite extractBlock_take by done.
  rewrite block_bytes by done. apply take_lookups. lia.
Qed.

End blocks.
(** ** The streaming state *)

Section streaming.
Import JS Sha1.

Lemma length_pos {A} (l : list A) : l ≠ [] → (0 < length l)%nat.
Proof. destruct l; simpl; [done|lia]. Qed.

Lemma payload_Z (n : nat) :
  (0 < n)%nat →
  (if rem (Z.of_nat n) 64 =? 0 then 64 else rem (Z.of_nat n) 64)
  = Z.of_nat (payload n).
Proof.
  intros Hn. unfold rem, payload. destruct (Z.eqb_spec (Z.rem (Z.of_nat n) 64) 0); lia.
Qed.

Lemma payload_bounds n : (1 ≤ payload n ≤ 64)%nat.
Proof. unfold payload. lia. Qed.

Lemma payload_le n : (0 < n)%nat → (payload n ≤ n)%nat.
Proof. unfold payload. lia. Qed.

Lemma payload_add n k : (0 < n)%nat → payload (payload n + k) = payload (n + k).
Proof. unfold payload. lia. Qed.

Lemma prototype_feed_new m : prototype_feed m false new = fed m.
Proof.
  destruct m as [|c m]; [done|].
  unfold prototype_feed, fed. cbn [aLastBlock new nAccumulatedMessageLength aResults feed_replaced].
  rewrite (chunk_split (c :: m)) by done.
  rewrite last_snoc, removelast_last. f_equal.
Qed.

Lemma pending_fed m :
  is_binary m → m ≠ [] →
  pending (fed m) = drop (length m - payload (length m)) m.
Proof.
  intros Hm Hne. pose proof (length_pos m Hne) as Hlen.
  pose proof (payload_bounds (length m)). pose proof (payload_le _ Hlen).
  destruct m as [|c m]; [done|]. unfold pending, fed.
  cbn [aLastBlock nAccumulatedMessageLength].
  rewrite payload_Z by done.
  set (d := drop _ _).
  replace (payload (length (c :: m))) with (length d)
    by (unfold d; rewrite length_drop; lia).
  apply extractBlock_block.
  - by apply is_binary_drop.
  - unfold d. rewrite length_drop. lia.
Qed.

(** Feeding [x] after [m] is feeding [m ++ x]. *)
Lemma prototype_feed_fed m x :
  is_binary m → prototype_feed x false (fed m) = fed (m ++ x).
Proof.
  intros Hm.
  destruct (decide (m = [])) as [->|Hne]; [apply prototype_feed_new|].
  destruct x as [|c x]; [by rewrite app_nil_r|].
  pose proof (pending_fed m Hm Hne) as Hpend.
  pose proof (length_pos m Hne) as Hlen.
  pose proof (payload_bounds (length m)) as Hp. pose proof (payload_le _ Hlen) as Hp'.
  set (n := (length m - payload (length m))%nat) in *.
  set (d := drop n m) in *.
  assert (Hd : length d = payload (length m)) by (unfold d; rewrite length_drop; lia).
  assert (Hfed : fed m =
    {| aResults := feedHashWithBlocks (chunk (take n m)) (aResults new);
       aLastBlock := Some (block d 0);
       nAccumulatedMessageLength := Z.of_nat (length m);
       feed_replaced := false |}) by (by destruct m).
  unfold pending in Hpend. rewrite Hfed in Hpend |- *.
  cbn [aLastBlock nAccumulatedMessageLength] in Hpend.
  unfold prototype_feed.
  cbn [aLastBlock nAccumulatedMessageLength aResults feed_replaced].
  rewrite Hpend. set (x' := c :: x).
  assert (Hdx : d ++ x' ≠ []) by (destruct d; done).
  rewrite (chunk_split (d ++ x')) by done.
  rewrite last_snoc, removelast_last.
  set (n' := (length (d ++ x') - payload (length (d ++ x')))%nat).
  assert (Hpay : payload (length (d ++ x')) = payload (length (m ++ x'))).
  { rewrite !length_app, Hd. by apply payload_add. }
  assert (HN : (length (m ++ x') - payload (length (m ++ x')) = n + n')%nat).
  { unfold n'. rewrite Hpay. pose proof (payload_bounds (length (d ++ x'))).
    assert (payload (length (d ++ x')) ≤ length (d ++ x'))%nat
      by (apply payload_le, length_pos; done).
    rewrite Hpay in *. rewrite !length_app in *. unfold n. lia. }
  assert (Hsplit : m ++ x' = take n m ++ (d ++ x'))
    by (unfold d; by rewrite (assoc_L (++)), take_drop).
  assert (Hn : length (take n m) = n) by (rewrite length_take; lia).
  assert (Hmx : fed (m ++ x') =
    {| aResults := feedHashWithBlocks (chunk (take (n + n') (m ++ x'))) (aResults new);
       aLastBlock := Some (block (drop (n + n') (m ++ x')) 0);
       nAccumulatedMessageLength := Z.of_nat (length (m ++ x'));
       feed_replaced := false |}).
  { unfold fed. rewrite HN. destruct (m ++ x') eqn:E; [|done].
    by apply app_eq_nil in E as [? ?]. }
  rewrite Hmx. rewrite Hsplit at 1 2.
  rewrite take_app_add', drop_app_add' by done.
  rewrite (chunk_app _ _ (n / 64)) by (rewrite Hn; unfold n, payload; lia).
  unfold feedHashWithBlocks at 3. rewrite foldl_app.
  f_equal. rewrite length_app. lia.
Qed.

Lemma feeds_cons x xs this :
  feeds (x :: xs) this = bind (feed x false this) (feeds xs).
Proof.
  unfold feeds. simpl. destruct (feed x false this) as [this'|e]; simpl; [done|].
  induction xs as [|y ys IH]; simpl; done.
Qed.

Lemma feeds_fed aInputs m :
  is_binary m → Forall is_binary aInputs →
  feeds aInputs (fed m) = Normal (fed (m ++ concat aInputs)).
Proof.
  intros Hm Hall. revert m Hm.
  induction Hall as [|x xs Hx Hxs IH]; intros m Hm.
  - by rewrite app_nil_r.
  - rewrite feeds_cons. unfold feed.
    replace (feed_replaced (fed m)) with false by (by destruct m).
    simpl. rewrite prototype_feed_fed by done.
    rewrite IH by (by apply is_binary_app). by rewrite (assoc_L (++)).
Qed.

Lemma is_binary_concat aInputs :
  is_binary (concat aInputs) → Forall is_binary aInputs.
Proof.
  induction aInputs as [|x xs IH]; simpl; [constructor|].
  intros [? ?]%Forall_app. constructor; auto.
Qed.

End streaming.

(** ** The digest of a stream *)

Section digest.
Import JS Sha1.

Lemma digest_fed aInputs bRaw :
  Forall is_binary aInputs →
  digest aInputs bRaw = Normal (finalize bRaw (fed (concat aInputs))).1.
Proof.
  intros Hall. unfold digest.
  change new with (fed []). rewrite feeds_fed by (done || constructor). done.
Qed.

(** C1. Incremental / one-shot equivalence: whatever the way a binary string
    [s] is cut into consecutive pieces (empty pieces included), feeding the
    pieces one by one to a fresh instance and finalizing returns a digest,
    and it is the digest returned when [s] is fed in a single call. *)
Theorem C1_incremental_equals_one_shot (s : jsstring) (aPieces : list jsstring)
    (bRaw : bool) :
  is_binary s → concat aPieces = s →
  ∃ sDigest, digest aPieces bRaw = Normal sDigest ∧
             digest [s] bRaw = Normal sDigest.
Proof.
  intros Hs Hcat. exists (finalize bRaw (fed s)).1. split.
  - rewrite digest_fed by (apply is_binary_concat; by rewrite Hcat).
    by rewrite Hcat.
  - rewrite digest_fed by (by repeat constructor).
    simpl. by rewrite app_nil_r.
Qed.

Lemma C1_incremental_equals_one_shot_witness :
  ∃ sDigest,
    digest [str "123"; str "456"; str "789"] false = Normal sDigest ∧
    digest [str "123456789"] false = Normal sDigest.
Proof.
  apply (C1_incremental_equals_one_shot (str "123456789")
           [str "123"; str "456"; str "789"] false).
  - unfold is_binary. vm_compute. repeat constructor; discriminate.
  - reflexivity.
Defined.

(** C2. Known-answer vectors: "abcdef" and 1500 times "A". *)
Theorem C2_known_answers :
  digest [str "abcdef"] false
    = Normal (str "1f8ac10f23c5b5bc1167bda84b833e5c057a77d2") ∧
  digest [replicate 1500 65] false
    = Normal (str "a7f644d4a5b863037da8cadd2e69640ef3dc804e").
Proof. split; vm_compute; reflexivity. Qed.

(** C6, as stated, fails: after 64 bytes were fed the pending buffer holds
    all 64 of them and nothing was compressed. *)
Lemma C6_counterexample :
  ∃ this, feeds [replicate 64 65] new = Normal this ∧
          length (pending this) = 64%nat ∧
          ¬ (length (pending this) < 64)%nat ∧
          aResults this = aResults new.
Proof.
  eexists. split; [reflexivity|].
  split; [vm_compute; reflexivity|]. split; [|vm_compute; reflexivity].
  intros H. vm_compute in H. lia.
Qed.

(** C6, amended. After any sequence of feeds of binary strings the stream
    splits into a processed part, whose 64-byte blocks are exactly what was
    compressed into the accumulators, and the pending part retained in the
    last block, which holds at most 64 bytes, and at least one as soon as
    something was fed: the most recent block is retained even when it is
    complete. *)
Theorem C6_pending_at_most_64 (aInputs : list jsstring) :
  Forall is_binary aInputs →
  ∃ this processed,
    feeds aInputs new = Normal this ∧
    concat aInputs = processed ++ pending this ∧
    (length processed mod 64 = 0)%nat ∧
    aResults this = feedHashWithBlocks (chunk processed) (aResults new) ∧
    (length (pending this) ≤ 64)%nat ∧
    (concat aInputs ≠ [] → (1 ≤ length (pending this))%nat).
Proof.
  intros Hall. set (m := concat aInputs).
  assert (Hm : is_binary m) by (by apply Forall_concat).
  exists (fed m), (take (length m - payload (length m)) m).
  split; [|destruct (decide (m = [])) as [Hnil|Hne]].
  - change new with (fed []). by rewrite feeds_fed by (done || constructor).
  - rewrite Hnil. simpl. repeat split; try done; lia.
  - rewrite pending_fed by done.
    pose proof (length_pos m Hne). pose proof (payload_bounds (length m)).
    pose proof (payload_le (length m)).
    rewrite take_drop, length_take, length_drop.
    repeat split; try lia.
    + unfold payload. lia.
    + by destruct m.
Qed.

Lemma C6_pending_at_most_64_witness :
  ∃ this processed,
    feeds [replicate 64 65; str "abc"] new = Normal this ∧
    concat [replicate 64 65; str "abc"] = processed ++ pending this ∧
    (length processed mod 64 = 0)%nat ∧
    aResults this = feedHashWithBlocks (chunk processed) (aResults new) ∧
    (length (pending this) ≤ 64)%nat ∧
    (concat [replicate 64 65; str "abc"] ≠ [] → (1 ≤ length (pending this))%nat).
Proof.
  apply (C6_pending_at_most_64 [replicate 64 65; str "abc"]).
  vm_compute. repeat constructor; discriminate.
Defined.

(** C7. Once [finalize] was called, every call of [feed] throws, whatever
    its arguments, and so does every sequence of calls that follows; a call
    that throws yields no new state: the instance keeps the accumulators
    [finalize] left, and reading the digest again returns the same string. *)
Theorem C7_feed_after_finalize_throws (this : t) (bRaw : bool)
    (sInput : jsstring) (bUnicode : bool) (aInputs : list jsstring) :
  let this' := (finalize bRaw this).2 in
  feed sInput bUnicode this' = Throw InvalidState ∧
  feeds (sInput :: aInputs) this' = Throw InvalidState ∧
  aResults (finalize bRaw this').2 = aResults this' ∧
  (finalize bRaw this').1 = (finalize bRaw this).1.
Proof.
  intros this'. split; [done|]. split.
  - rewrite feeds_cons. done.
  - unfold this'. clear this'.
    destruct this as [r [aLast|] n f], bRaw; split; reflexivity.
Qed.

End digest.

(** ** Hexadecimal and binary output *)

Section output.
Import JS Sha1.

Lemma ToInt32_mod_pow2 x k : 0 ≤ k ≤ 32 → ToInt32 x mod 2 ^ k = x mod 2 ^ k.
Proof.
  intros Hk.
  assert (Hdiv : (2 ^ k | 2 ^ 32)).
  { exists (2 ^ (32 - k)). rewrite <- Z.pow_add_r by lia. f_equal. lia. }
  rewrite <- (Z.mod_mod_divide (ToInt32 x) (2 ^ 32) (2 ^ k)) by done.
  rewrite ToInt32_mod. by apply Z.mod_mod_divide.
Qed.

Lemma band_0xff x : band x 0xff = x mod 256.
Proof.
  unfold band. change (ToInt32 255) with (Z.ones 8).
  rewrite Z.land_ones by lia. apply (ToInt32_mod_pow2 x 8). lia.
Qed.

Lemma band_0xf x : band x 0xf = x mod 16.
Proof.
  unfold band. change (ToInt32 15) with (Z.ones 4).
  rewrite Z.land_ones by lia. apply (ToInt32_mod_pow2 x 4). lia.
Qed.

Lemma shru_div w s : 0 ≤ s < 32 → shru w s = (w mod 2 ^ 32) / 2 ^ s.
Proof.
  intros Hs. unfold shru, ToUint32.
  replace (s mod 2 ^ 32 mod 32) with s by lia.
  apply Z.shiftr_div_pow2. lia.
Qed.

Lemma toString16_digit n : 0 ≤ n < 16 → toString16 n = [hexDigit n].
Proof.
  intros Hn. unfold toString16.
  destruct (Z.ltb_spec n 0); [lia|]. simpl.
  replace (n / 16) with 0 by lia. replace (n mod 16) with n by lia. done.
Qed.

Lemma formatHashBinary_bytes this :
  formatHashBinary this =
    bytes4 (h0 (aResults this)) ++ bytes4 (h1 (aResults this)) ++
    bytes4 (h2 (aResults this)) ++ bytes4 (h3 (aResults this)) ++
    bytes4 (h4 (aResults this)).
Proof. reflexivity. Qed.

Lemma hexOfBinary_app a b : hexOfBinary (a ++ b) = hexOfBinary a ++ hexOfBinary b.
Proof. unfold hexOfBinary. apply bind_app. Qed.

Lemma hexOfBinary_bytes4 w : hexOfBinary (bytes4 w) = binaryToHexString w.
Proof.
  unfold hexOfBinary, bytes4, binaryToHexString.
  cbn [seq fmap list_fmap mbind list_bind app reverse rev_append foldl].
  change (Z.of_nat 0) with 0. change (Z.of_nat 1) with 1.
  change (Z.of_nat 2) with 2. change (Z.of_nat 3) with 3.
  change (Z.of_nat 4) with 4. change (Z.of_nat 5) with 5.
  change (Z.of_nat 6) with 6. change (Z.of_nat 7) with 7.
  rewrite !band_0xff, !band_0xf, !shru_div by lia.
  rewrite !toString16_digit by lia.
  cbn [app]. generalize (w mod 2 ^ 32). intros u.
  repeat match goal with
         | |- context [2 ^ ?e] =>
             let v := eval vm_compute in (2 ^ e) in change (2 ^ e) with v
         end.
  repeat (apply (f_equal2 cons); [f_equal; lia|]). reflexivity.
Qed.

(** C9. Binary / hexadecimal consistency: on identically fed instances,
    [finalize (true)] returns 20 characters, [finalize (false)] returns 40,
    and writing every character code of the former as two lowercase
    hexadecimal digits gives the latter: both render the same five
    accumulators. *)
Theorem C9_binary_hex_consistent (aInputs : list jsstring) :
  digest aInputs false =
    bind (digest aInputs true) (λ sBinary, Normal (hexOfBinary sBinary)) ∧
  ∀ this : t,
    hexOfBinary (finalize true this).1 = (finalize false this).1 ∧
    length (finalize true this).1 = 20%nat ∧
    length (finalize false this).1 = 40%nat.
Proof.
  assert (Hfmt : ∀ this : t, hexOfBinary (formatHashBinary this) = formatHashHex this).
  { intros this. rewrite formatHashBinary_bytes, !hexOfBinary_app, !hexOfBinary_bytes4.
    done. }
  assert (Hfin : ∀ this : t, hexOfBinary (finalize true this).1 = (finalize false this).1).
  { intros this. unfold finalize. cbn [fst]. apply Hfmt. }
  split.
  - unfold digest. destruct (feeds aInputs new) as [this|e]; cbn [bind]; [|done].
    by rewrite Hfin.
  - intros this. split; [apply Hfin|].
    assert (Hlen : length (finalize true this).1 = 20%nat) by done.
    split; [done|]. rewrite <- Hfin. unfold hexOfBinary.
    generalize dependent (finalize true this).1. intros l Hl.
    do 21 (destruct l as [|? l]; try discriminate Hl). done.
Qed.

(** C10. When no character was ever fed ([feed] never called, or called
    with empty input only) [finalize] skips the padding and renders the
    initialization constants, not the SHA-1 digest of the empty message. *)
Theorem C10_nothing_fed (n : nat) :
  digest (replicate n []) false
    = Normal (str "67452301efcdab8998badcfe10325476c3d2e1f0") ∧
  aLastBlock new = None ∧
  str "67452301efcdab8998badcfe10325476c3d2e1f0"
    ≠ str "da39a3ee5e6b4b0d3255bfef95601890afd80709".
Proof.
  split; [|split; [done|discriminate]].
  unfold digest. assert (feeds (replicate n []) new = Normal new) as ->.
  { induction n as [|n IH]; [done|]. simpl. by rewrite feeds_cons. }
  vm_compute. reflexivity.
Qed.

End output.

(** ** Chunk planning and retries *)

Section uploader.
Import Uploader.

Lemma finals_cons c l :
  finals (c :: l) =
    match res_entire_size c with Some _ => c :: finals l | None => finals l end.
Proof.
  unfold finals. rewrite filter_cons. destruct (res_entire_size c) as [n|].
  - rewrite decide_True; [done|by eexists].
  - rewrite decide_False; [done|by intros [? ?]].
Qed.

Lemma planFrom_spec (fuel : nat) (this : t) :
  0 < nChunksize this → (0 < fuel)%nat →
  oFile_size this - nOffset this < Z.of_nat fuel →
  ∃ l, planFrom fuel this = Some l ∧
       Forall (λ c, res_size c
                    = Z.min (nChunksize this) (oFile_size this - res_offset c)) l ∧
       (oFile_size this ≤ nOffset this → l = []) ∧
       (nOffset this < oFile_size this →
        tiles (nOffset this) l (oFile_size this) ∧
        Forall (λ c, is_Some (res_entire_size c) ↔
                     res_offset c + nChunksize this >= oFile_size this) l ∧
        length (finals l) = 1%nat).
Proof.
  revert this. induction fuel as [|fuel IH]; intros this Hc Hf Hfuel; [lia|].
  cbn [planFrom]. unfold processNextChunk.
  destruct (Z.geb_spec (nOffset this) (oFile_size this)) as [Hge|Hlt].
  - exists []. split; [done|]. split; [constructor|]. split; [done|]. lia.
  - set (this' := {| nOffset := nOffset this + nChunksize this;
                     nChunksize := nChunksize this;
                     oFile_size := oFile_size this;
                     nRetriesLeft := nRetriesLeft this;
                     oRequest := oRequest this;
                     bFinished := bFinished this |}).
    destruct (IH this') as (l & Hl & Hsz & Hnil & Hcons); [done|cbn; lia|cbn; lia|].
    rewrite Hl. cbn [fmap option_fmap option_map].
    cbn [nOffset nChunksize oFile_size this'] in Hsz, Hnil, Hcons.
    set (c := onmessage _).
    assert (Hoff : res_offset c = nOffset this) by done.
    assert (Hsize : res_size c
                    = Z.min (nChunksize this) (oFile_size this - nOffset this)) by done.
    assert (Hflag : res_entire_size c =
      if nOffset this + nChunksize this >=? oFile_size this
      then Some (oFile_size this) else None) by done.
    clearbody c. exists (c :: l). split; [done|].
    split; [constructor; [by rewrite Hoff|done]|]. split; [lia|]. intros _.
    rewrite finals_cons, Hflag. cbn [tiles].
    destruct (Z.geb_spec (nOffset this + nChunksize this) (oFile_size this))
      as [Hlast|Hmore].
    + rewrite (Hnil ltac:(lia)). cbn [tiles].
      repeat split; [done|lia|lia|].
      repeat constructor; rewrite ?Hflag; [|by eexists].
      destruct (Z.geb_spec (nOffset this + nChunksize this) (oFile_size this)); lia.
    + destruct (Hcons ltac:(lia)) as (Ht & Hflags & Hfin).
      repeat split; [done|lia| |constructor; [|done]|done].
      * by replace (res_size c) with (nChunksize this) by lia.
      * rewrite Hflag, Hoff.
        destruct (Z.geb_spec (nOffset this + nChunksize this) (oFile_size this));
          [lia|]. split; [by intros [? ?]|lia].
Qed.

(** C3, as stated, fails for an empty file: nothing is planned, so no chunk
    carries the final flag. *)
Lemma C3_counterexample :
  plan 0 102400 = Some [] ∧ ¬ planned 0 102400.
Proof.
  split; [done|]. intros (l & Hl & _ & _ & Hfin).
  assert (l = []) as -> by (vm_compute in Hl; congruence).
  discriminate Hfin.
Qed.

(** C3, amended. For every [totalSize >= 0] and [chunkSize > 0] the plan is
    produced; its chunks, of size [min (chunkSize, totalSize - offset)],
    tile [0, totalSize) without gap or overlap in ascending order; the
    final flag is set iff [offset + chunkSize >= totalSize]; exactly one
    chunk carries it when [totalSize > 0], and the plan of an empty file is
    empty. *)
Theorem C3_chunk_plan (totalSize chunkSize : Z) :
  0 ≤ totalSize → 0 < chunkSize →
  ∃ l, plan totalSize chunkSize = Some l ∧
       tiles 0 l totalSize ∧
       Forall (λ c, res_size c = Z.min chunkSize (totalSize - res_offset c)) l ∧
       Forall (λ c, is_Some (res_entire_size c) ↔
                    res_offset c + chunkSize >= totalSize) l ∧
       length (finals l) = (if totalSize =? 0 then 0%nat else 1%nat) ∧
       (0 < totalSize → planned totalSize chunkSize).
Proof.
  intros Hsize Hchunk. unfold planned, plan.
  destruct (planFrom_spec (S (Z.to_nat totalSize)) (new totalSize chunkSize))
    as (l & Hl & Hsz & Hnil & Hcons); [done|lia|cbn; lia|].
  cbn [nOffset nChunksize oFile_size new] in Hsz, Hnil, Hcons.
  exists l. split; [done|].
  destruct (Z.eqb_spec totalSize 0) as [->|Hne].
  - rewrite (Hnil ltac:(lia)) in *. repeat split; try done; lia.
  - destruct (Hcons ltac:(lia)) as (Ht & Hflags & Hfin).
    repeat split; try done. intros _. exists l. done.
Qed.

Lemma C3_chunk_plan_witness :
  ∃ l, plan 250000 100000 = Some l ∧
       tiles 0 l 250000 ∧
       Forall (λ c, res_size c = Z.min 100000 (250000 - res_offset c)) l ∧
       Forall (λ c, is_Some (res_entire_size c) ↔
                    res_offset c + 100000 >= 250000) l ∧
       length (finals l) = (if 250000 =? 0 then 0%nat else 1%nat) ∧
       (0 < 250000 → planned 250000 100000).
Proof. apply (C3_chunk_plan 250000 100000); lia. Defined.

(** The end-to-end scenario of the specification: 250,000 bytes in chunks of
    100,000. *)
Example plan_250000 :
  plan 250000 100000 =
    Some [ {| res_offset := 0; res_size := 100000; res_entire_size := None |};
           {| res_offset := 100000; res_size := 100000; res_entire_size := None |};
           {| res_offset := 200000; res_size := 50000;
              res_entire_size := Some 250000 |} ].
Proof. vm_compute. reflexivity. Qed.

Lemma step_true_retries this : nRetriesLeft (step this true) = nRetriesLeft this.
Proof.
  unfold step. destruct (oRequest this) as [r|]; [|done].
  unfold fpFinish, processNextChunk. cbn.
  destruct (nOffset this >=? oFile_size this); done.
Qed.

Lemma step_false_retries this :
  nRetriesLeft (step this false) =
    nRetriesLeft this
    - (if bool_decide (is_Some (oRequest this)) && negb (nRetriesLeft this =? 0)
       then 1 else 0).
Proof.
  unfold step. destruct (oRequest this) as [r|] eqn:Hr.
  - rewrite bool_decide_eq_true_2 by (by eexists).
    unfold fpFinish. cbn. destruct (nRetriesLeft this =? 0); cbn; lia.
  - rewrite bool_decide_eq_false_2 by (by intros [? ?]). cbn. lia.
Qed.

Lemma run_retries outcomes this :
  0 ≤ nRetriesLeft this →
  0 ≤ nRetriesLeft (run outcomes this) ≤ nRetriesLeft this ∧
  nRetriesLeft (run outcomes this) = nRetriesLeft this - retransmissions outcomes this.
Proof.
  revert this. induction outcomes as [|b outcomes IH]; intros this Hpos.
  - cbn. lia.
  - cbn [run foldl retransmissions]. fold (run outcomes (step this b)).
    destruct b.
    + pose proof (step_true_retries this) as Hs.
      destruct (IH (step this true)) as [? ?]; [lia|]. cbn. lia.
    + pose proof (step_false_retries this) as Hs.
      cbn [negb andb].
      destruct (bool_decide (is_Some (oRequest this))); cbn [andb] in *;
        [destruct (Z.eqb_spec (nRetriesLeft this) 0); cbn [negb] in *|];
        (destruct (IH (step this false)) as [? ?]; [lia|]); lia.
Qed.

(** C4, as stated, fails: after one failed and one successful transfer of
    the first chunk the session moves on to the second chunk with two
    retries left, not three. *)
Lemma C4_counterexample :
  let this := run [false; true] (start (new 2 1)) in
  res_offset <$> oRequest this = Some 1 ∧
  nRetriesLeft this = 2 ∧
  ¬ reset_on_advance 2 1 [false].
Proof.
  split; [done|]. split; [done|]. intros H.
  specialize (H _ _ eq_refl eq_refl). cbn in H.
  specialize (H ltac:(done)). discriminate H.
Qed.

(** C4, amended. A session starts with three retries.  A failed transfer
    with retries left takes one and sends the same chunk again; with none
    left nothing is sent any more.  A successful transfer leaves the
    counter as it is, also when the session advances to the next chunk: the
    counter never increases, the budget of three is shared by all the chunks
    of the session. *)
Theorem C4_retry_budget (totalSize chunkSize : Z) (outcomes : list bool) :
  let this0 := start (new totalSize chunkSize) in
  let this := run outcomes this0 in
  nRetriesLeft this0 = 3 ∧
  nRetriesLeft this = 3 - retransmissions outcomes this0 ∧
  0 ≤ nRetriesLeft this ≤ 3 ∧
  nRetriesLeft (step this true) = nRetriesLeft this ∧
  (∀ r, oRequest this = Some r → nRetriesLeft this ≠ 0 →
        oRequest (step this false) = Some r ∧
        nOffset (step this false) = nOffset this ∧
        nRetriesLeft (step this false) = nRetriesLeft this - 1) ∧
  (nRetriesLeft this = 0 → oRequest (step this false) = None).
Proof.
  intros this0 this.
  assert (H0 : nRetriesLeft this0 = 3).
  { unfold this0, start, new, processNextChunk. cbn.
    destruct (0 >=? totalSize); done. }
  destruct (run_retries outcomes this0) as [Hb He]; [lia|].
  fold this in Hb, He. rewrite H0 in *.
  split; [done|]. split; [done|]. split; [lia|].
  split; [apply step_true_retries|]. split.
  - intros r Hr Hne. unfold step. rewrite Hr. unfold fpFinish. cbn.
    destruct (Z.eqb_spec (nRetriesLeft this) 0); [done|]. done.
  - intros Hz. unfold step. destruct (oRequest this) as [r|] eqn:Hr; [|done].
    unfold fpFinish. cbn. rewrite Hz. done.
Qed.

End uploader.

(** ** Zero-padded offsets and the order of file names *)

Section keys.
Import Uploader Receiver.

Lemma compare_refl s : (s ?= s)%string = Eq.
Proof.
  induction s as [|a s IH]; simpl; [done|].
  unfold Ascii.compare. by rewrite N.compare_refl.
Qed.

Lemma compare_app_l p a b : (p +:+ a ?= p +:+ b)%string = (a ?= b)%string.
Proof.
  induction p as [|x p IH]; [done|].
  change ((String x (p +:+ a) ?= String x (p +:+ b))%string = (a ?= b)%string).
  cbn [String.compare]. unfold Ascii.compare. by rewrite N.compare_refl.
Qed.

Lemma length_append a b :
  String.length (a +:+ b) = (String.length a + String.length b)%nat.
Proof.
  induction a as [|x a IH]; [done|].
  change (String.length (String x (a +:+ b))
          = (S (String.length a) + String.length b)%nat).
  cbn [String.length]. by rewrite IH.
Qed.

Lemma length_zeros k : String.length (zeros k) = k.
Proof. induction k as [|k IH]; simpl; [done|]. by rewrite IH. Qed.

Lemma zeros_snoc k acc : zeros k +:+ String "0" acc = String "0" (zeros k +:+ acc).
Proof.
  induction k as [|k IH]; [done|].
  change (String "0" (zeros k +:+ String "0" acc)
          = String "0" (String "0" (zeros k +:+ acc))).
  by rewrite IH.
Qed.

Lemma fixed_zero k acc : fixed k 0 acc = zeros k +:+ acc.
Proof.
  revert acc. induction k as [|k IH]; intros acc; [done|].
  cbn [fixed]. change (0 / 10) with 0. change (digit (0 mod 10)) with "0"%char.
  rewrite IH. apply zeros_snoc.
Qed.

Lemma compare_digit x y :
  0 ≤ x < 10 → 0 ≤ y < 10 → Ascii.compare (digit x) (digit y) = (x ?= y).
Proof.
  intros Hx Hy. unfold Ascii.compare, digit.
  rewrite !N_ascii_embedding by lia.
  rewrite Z2N.inj_compare by lia. apply Z.add_compare_mono_l.
Qed.

(** On representations of the same width the lexicographic order is the
    numeric order. *)
Lemma compare_fixed k a b acc1 acc2 :
  0 ≤ a < 10 ^ Z.of_nat k → 0 ≤ b < 10 ^ Z.of_nat k →
  (fixed k a acc1 ?= fixed k b acc2)%string =
    match a ?= b with
    | Eq => (acc1 ?= acc2)%string
    | c => c
    end.
Proof.
  revert a b acc1 acc2. induction k as [|k IH]; intros a b acc1 acc2 Ha Hb.
  - change (10 ^ Z.of_nat 0) with 1 in *.
    assert (a = 0) as -> by lia. assert (b = 0) as -> by lia. done.
  - rewrite Nat2Z.inj_succ, Z.pow_succ_r in Ha, Hb by lia.
    cbn [fixed]. rewrite IH by lia. cbn [String.compare].
    rewrite compare_digit by lia.
    destruct (Z.compare_spec (a / 10) (b / 10)), (Z.compare_spec a b),
      (Z.compare_spec (a mod 10) (b mod 10)); try done; lia.
Qed.

Lemma decimal_go_fixed fuel n acc k :
  0 ≤ n < 2 ^ Z.of_nat (S fuel) → n < 10 ^ Z.of_nat (S k) →
  ∃ j, (j ≤ k)%nat ∧
       String.length (decimal_go (S fuel) n acc) = (S k - j + String.length acc)%nat ∧
       zeros j +:+ decimal_go (S fuel) n acc = fixed (S k) n acc.
Proof.
  revert n acc k. induction fuel as [|fuel IH]; intros n acc k Hn Hk.
  - change (2 ^ Z.of_nat 1) with 2 in Hn. cbn [decimal_go fixed].
    replace (n / 10) with 0 by lia. cbn [Z.eqb].
    exists k. split; [done|]. split; [cbn; lia|]. by rewrite fixed_zero.
  - rewrite Nat2Z.inj_succ, Z.pow_succ_r in Hn, Hk by lia.
    set (f := S fuel) in *. cbn [decimal_go fixed].
    destruct (Z.eqb_spec (n / 10) 0) as [Hz|Hnz].
    + rewrite Hz. exists k. split; [done|]. split; [cbn; lia|]. by rewrite fixed_zero.
    + destruct k as [|k]; [change (10 ^ Z.of_nat 0) with 1 in Hk; lia|].
      destruct (IH (n / 10) (String (digit (n mod 10)) acc) k) as (j & Hj & Hlen & Heq).
      * lia.
      * lia.
      * exists j. split; [lia|]. split; [|done]. rewrite Hlen. cbn. lia.
Qed.

(** The key of an offset below 10^15 is its 15-digit representation. *)
Lemma key_fixed n : 0 ≤ n < 10 ^ 15 → sprintf_015s (decimal n) = fixed 15 n "".
Proof.
  intros Hn. unfold sprintf_015s, decimal.
  destruct (decimal_go_fixed (Z.to_nat (Z.log2 n)) n "" 14) as (j & Hj & Hlen & Heq).
  - split; [lia|]. rewrite Nat2Z.inj_succ, Z2Nat.id by apply Z.log2_nonneg.
    destruct (decide (n = 0)) as [->|]; [done|]. apply Z.log2_spec. lia.
  - change (Z.of_nat 15) with 15. lia.
  - rewrite Hlen. cbn [String.length]. by replace (15 - (15 - j + 0))%nat with j by lia.
Qed.

Lemma compare_target_name name a b :
  0 ≤ a < 10 ^ 15 → 0 ≤ b < 10 ^ 15 →
  (target_name name (decimal a) ?= target_name name (decimal b))%string = (a ?= b).
Proof.
  intros Ha Hb. unfold target_name. rewrite !compare_app_l, !key_fixed by done.
  rewrite (compare_fixed 15) by (change (Z.of_nat 15) with 15; lia).
  by destruct (a ?= b).
Qed.

Lemma target_name_ne name offset : target_name name offset ≠ name.
Proof.
  intros H. apply (f_equal String.length) in H. unfold target_name in H.
  rewrite !length_append in H. cbn in H. lia.
Qed.

End keys.

(** ** The receiving script *)

Section receiver.
Import Receiver.

Lemma upload_mismatch cmp sha1 r fs :
  strtolower (sha1 (tmp r)) ≠ strtolower (hash r) →
  upload cmp sha1 r fs =
    (Status500 "Hash mismatch for chunk.",
     <[guid r := move_uploaded_file (tmp r) (target_name (name r) (offset r))
                   (default ∅ (fs !! guid r))]> fs).
Proof.
  intros Hne. unfold upload, sha1_hash_file, move_uploaded_file.
  rewrite lookup_insert_eq. cbn [fmap option_fmap option_map].
  apply String.eqb_neq in Hne. by rewrite Hne.
Qed.

Lemma chunk_store_moved r fs dir :
  chunk_store r
    (<[guid r := move_uploaded_file (tmp r) (target_name (name r) (offset r)) dir]> fs)
    !! target_name (name r) (offset r) = Some (tmp r).
Proof.
  unfold chunk_store, move_uploaded_file. rewrite lookup_insert_eq. cbn [default].
  rewrite lookup_delete_ne by (apply not_eq_sym, target_name_ne).
  apply lookup_insert_eq.
Qed.

(** C5, as stated, fails: a chunk whose last bit was flipped is answered
    with an error, yet its bytes are in the session's chunk store. *)
Lemma C5_counterexample :
  let r := {| guid := "0123456789ABCDEF"; offset := "0";
              hash := "1f8ac10f23c5b5bc1167bda84b833e5c057a77d2";
              entire_hash := None; name := "file.bin";
              tmp := str "abcdeg" |} in
  sha1_hex (str "abcdef") = hash r ∧
  ∃ fs', upload by_value sha1_hex r ∅ = (Status500 "Hash mismatch for chunk.", fs') ∧
         chunk_store r fs' !! "file.bin.000000000000000" = Some (str "abcdeg").
Proof.
  intros r. split; [vm_compute; reflexivity|].
  eexists. split.
  - apply upload_mismatch. vm_compute. discriminate.
  - apply (chunk_store_moved r).
Qed.

(** C5, amended. A submission whose recomputed digest disagrees with the
    claimed chunk hash is answered with an error (status 500, "Hash
    mismatch for chunk."); the uploaded bytes were moved into the session's
    chunk store before the comparison and stay there, under the zero-padded
    offset name, after the rejection. *)
Theorem C5_mismatch_rejected_after_store
    (compare_numerals : string → string → comparison) (sha1 : list Z → string)
    (r : submission) (fs : filesystem) :
  strtolower (sha1 (tmp r)) ≠ strtolower (hash r) →
  ∃ fs', upload compare_numerals sha1 r fs
         = (Status500 "Hash mismatch for chunk.", fs') ∧
         chunk_store r fs' !! target_name (name r) (offset r) = Some (tmp r) ∧
         ∀ g, g ≠ guid r → fs' !! g = fs !! g.
Proof.
  intros Hne. eexists. split; [by apply upload_mismatch|]. split.
  - apply chunk_store_moved.
  - intros g Hg. by rewrite lookup_insert_ne.
Qed.

Lemma C5_mismatch_rejected_after_store_witness :
  let r := {| guid := "0123456789ABCDEF"; offset := "102400";
              hash := "1f8ac10f23c5b5bc1167bda84b833e5c057a77d2";
              entire_hash := None; name := "file.bin";
              tmp := str "abcdeF" |} in
  ∃ fs', upload by_value sha1_hex r ∅ = (Status500 "Hash mismatch for chunk.", fs') ∧
         chunk_store r fs' !! target_name (name r) (offset r) = Some (tmp r) ∧
         ∀ g, g ≠ guid r → fs' !! g = (∅ : filesystem) !! g.
Proof.
  intros r. apply (C5_mismatch_rejected_after_store by_value sha1_hex r ∅).
  vm_compute. discriminate.
Defined.

(** *** Comparing file names *)

Lemma numeral_append a b : numeral (a +:+ b) = numeral a && numeral b.
Proof.
  induction a as [|c a IH]; [done|].
  change (numeral (String c (a +:+ b)) = numeral (String c a) && numeral b).
  cbn [numeral]. by rewrite IH, andb_assoc.
Qed.

Lemma numeral_target_name name offset :
  numeral name = false → numeral (target_name name offset) = false.
Proof. intros H. unfold target_name. by rewrite numeral_append, H. Qed.

Lemma loose_compare_l cmp a b :
  numeral a = false → loose_compare cmp a b = (a ?= b)%string.
Proof. intros H. unfold loose_compare. by rewrite H. Qed.

Lemma loose_compare_r cmp a b :
  numeral b = false → loose_compare cmp a b = (a ?= b)%string.
Proof. intros H. unfold loose_compare. by rewrite H, andb_false_r. Qed.

Lemma loose_eq_l cmp a b :
  numeral a = false → loose_eq cmp a b = true ↔ a = b.
Proof.
  intros H. unfold loose_eq. rewrite loose_compare_l by done.
  destruct (a ?= b)%string eqn:E.
  - split; [intros _; by apply String.compare_eq_iff|done].
  - split; [done|]. intros ->. by rewrite compare_refl in E.
  - split; [done|]. intros ->. by rewrite compare_refl in E.
Qed.

Lemma loose_leb_l cmp a b :
  numeral a = false → loose_leb cmp a b = String.leb a b.
Proof. intros H. unfold loose_leb. by rewrite loose_compare_l. Qed.

(** Merging and sorting look at the order of the elements at hand only. *)
Lemma list_merge_agree {A} (R R' : relation A)
    `{∀ x y, Decision (R x y)} `{∀ x y, Decision (R' x y)} (P : A → Prop) :
  (∀ x y, P x → P y → R x y ↔ R' x y) →
  ∀ l1 l2, Forall P l1 → Forall P l2 → list_merge R l1 l2 = list_merge R' l1 l2.
Proof.
  intros HR l1. induction l1 as [|x1 l1 IH1]; intros l2 H1 H2.
  - by rewrite !list_merge_nil_l.
  - induction l2 as [|x2 l2 IH2]; [by rewrite !list_merge_nil_r|].
    apply Forall_cons in H1 as [Hx1 H1'].
    apply Forall_cons in H2 as [Hx2 H2'].
    rewrite !list_merge_cons.
    destruct (decide (R x1 x2)) as [Hr|Hr], (decide (R' x1 x2)) as [Hr'|Hr'].
    + f_equal. apply IH1; [done|by constructor].
    + by apply HR in Hr.
    + by apply HR in Hr'.
    + f_equal. apply IH2. done.
Qed.

Lemma merge_list_to_stack_agree {A} (R R' : relation A)
    `{∀ x y, Decision (R x y)} `{∀ x y, Decision (R' x y)} (P : A → Prop) :
  (∀ x y, P x → P y → R x y ↔ R' x y) →
  ∀ st l, Forall (from_option (Forall P) True) st → Forall P l →
    merge_list_to_stack R st l = merge_list_to_stack R' st l ∧
    Forall (from_option (Forall P) True) (merge_list_to_stack R st l).
Proof.
  intros HR st. induction st as [|[l'|] st IH]; intros l Hst Hl; cbn.
  - split; [done|]. by repeat constructor.
  - apply Forall_cons in Hst as [Hl' Hst]. cbn in Hl'.
    rewrite (list_merge_agree R R' P HR l' l) by done.
    destruct (IH (list_merge R' l' l) Hst) as [-> Hok].
    { rewrite merge_Permutation. by apply Forall_app. }
    split; [done|]. by constructor.
  - apply Forall_cons in Hst as [_ Hst]. split; [done|]. by constructor.
Qed.

Lemma merge_stack_agree {A} (R R' : relation A)
    `{∀ x y, Decision (R x y)} `{∀ x y, Decision (R' x y)} (P : A → Prop) :
  (∀ x y, P x → P y → R x y ↔ R' x y) →
  ∀ st, Forall (from_option (Forall P) True) st →
    merge_stack R st = merge_stack R' st ∧ Forall P (merge_stack R st).
Proof.
  intros HR st. induction st as [|[l|] st IH]; intros Hst; cbn.
  - split; [done|constructor].
  - apply Forall_cons in Hst as [Hl Hst]. cbn in Hl.
    destruct (IH Hst) as [<- Hok]. split.
    + by apply (list_merge_agree R R' P).
    + rewrite merge_Permutation. by apply Forall_app.
  - apply Forall_cons in Hst as [_ Hst]. by apply IH.
Qed.

Lemma merge_sort_aux_agree {A} (R R' : relation A)
    `{∀ x y, Decision (R x y)} `{∀ x y, Decision (R' x y)} (P : A → Prop) :
  (∀ x y, P x → P y → R x y ↔ R' x y) →
  ∀ l st, Forall (from_option (Forall P) True) st → Forall P l →
    merge_sort_aux R st l = merge_sort_aux R' st l.
Proof.
  intros HR l. induction l as [|x l IH]; intros st Hst Hl; cbn.
  - by apply (merge_stack_agree R R' P).
  - apply Forall_cons in Hl as [Hx Hl].
    destruct (merge_list_to_stack_agree R R' P HR st [x] Hst) as [<- Hok];
      [by repeat constructor|].
    by apply IH.
Qed.

Lemma sort_bytewise cmp l :
  Forall (λ f, numeral f = false) l → sort cmp l = merge_sort String.le l.
Proof.
  intros Hl. unfold sort, merge_sort.
  apply (merge_sort_aux_agree _ _ (λ f, numeral f = false)); [|constructor|done].
  intros x y Hx _. unfold String.le. by rewrite loose_leb_l.
Qed.

(** *** Reassembly *)

Lemma persist_list_to_map name l :
  persist name l ∅ = list_to_map (reverse ((λ x, (fname name x, x.2)) <$> l)).
Proof.
  induction l as [|[o c] l IH] using rev_ind; [done|].
  unfold persist in *. rewrite foldl_snoc, IH.
  rewrite fmap_app. cbn [fmap list_fmap]. by rewrite reverse_snoc.
Qed.

Lemma covers_spec lo chunks source :
  covers lo chunks source →
  Forall (λ x, lo ≤ x.1) chunks ∧
  StronglySorted (λ x y : Z * list Z, x.1 < y.1) chunks ∧
  concat (chunks.*2) = source.
Proof.
  revert lo source. induction chunks as [|[o c] chunks IH]; intros lo source.
  - intros ->. repeat constructor.
  - intros (-> & Hc & rest & -> & Hrest).
    assert (0 < length c)%nat by (destruct c; cbn; [done|lia]).
    destruct (IH _ _ Hrest) as (Hlo & Hsorted & Hcat).
    split; [|split].
    + constructor; [cbn; lia|]. eapply Forall_impl; [exact Hlo|]. cbn. lia.
    + constructor; [done|]. eapply Forall_impl; [exact Hlo|]. cbn. lia.
    + cbn. by rewrite Hcat.
Qed.

Lemma fname_sorted name chunks :
  Forall (λ x, 0 ≤ x.1 < 10 ^ 15) chunks →
  StronglySorted (λ x y : Z * list Z, x.1 < y.1) chunks →
  StronglySorted String.le (fname name <$> chunks) ∧ NoDup (fname name <$> chunks).
Proof.
  intros Hrange Hsorted. induction Hsorted as [|x chunks Hs IH Hx]; cbn.
  - split; constructor.
  - apply Forall_cons in Hrange as [Hxr Hrange].
    destruct (IH Hrange) as [IHs IHn].
    assert (Hlt : Forall (λ y, (fname name x ?= fname name y)%string = Lt) chunks).
    { rewrite Forall_forall in Hx, Hrange |- *. intros y Hy.
      unfold fname. rewrite compare_target_name by auto.
      apply Z.compare_lt_iff. auto. }
    split; constructor; try done.
    + rewrite Forall_fmap. eapply Forall_impl; [exact Hlt|].
      intros y Hy. cbn. unfold String.le, String.leb. by rewrite Hy.
    + rewrite list_elem_of_fmap. intros (y & Heq & Hy).
      rewrite Forall_forall in Hlt. specialize (Hlt y Hy).
      rewrite Heq, compare_refl in Hlt. done.
Qed.

Lemma filter_all {A} (P : A → Prop) `{∀ x, Decision (P x)} (l : list A) :
  Forall P l → filter P l = l.
Proof.
  induction 1 as [|x l Hx Hl IH]; [done|].
  by rewrite filter_cons_True, IH.
Qed.

Lemma foldl_contents (dir : directory) name chunks acc :
  (∀ x, x ∈ chunks → dir !! fname name x = Some x.2) →
  foldl (λ file chunk, file ++ default [] (dir !! chunk)) acc (fname name <$> chunks)
  = acc ++ concat (chunks.*2).
Proof.
  revert acc. induction chunks as [|x chunks IH]; intros acc Hdir; cbn.
  - by rewrite app_nil_r.
  - rewrite (Hdir x) by left. cbn. rewrite IH by (intros; apply Hdir; by right).
    by rewrite (assoc_L (++)).
Qed.

(** Whatever the order of arrival, combining the stored chunks of an upload
    whose name is not numeric yields the concatenation of their contents in
    the order of their offsets. *)
Lemma combine_persisted cmp name chunks arrivals :
  numeral name = false →
  Forall (λ x, 0 ≤ x.1 < 10 ^ 15) chunks →
  StronglySorted (λ x y : Z * list Z, x.1 < y.1) chunks →
  arrivals ≡ₚ chunks →
  combine_chunks cmp name (persist name arrivals ∅) !! name
  = Some (concat (chunks.*2)).
Proof.
  intros Hnum Hrange Hsorted Hperm.
  destruct (fname_sorted name chunks Hrange Hsorted) as [HF Hnodup].
  rewrite persist_list_to_map.
  set (L := reverse ((λ x, (fname name x, x.2)) <$> arrivals)).
  assert (HL : L ≡ₚ (λ x, (fname name x, x.2)) <$> chunks).
  { unfold L. by rewrite reverse_Permutation, Hperm. }
  assert (HL1 : L.*1 ≡ₚ fname name <$> chunks).
  { rewrite HL, <- list_fmap_compose. done. }
  assert (HLnd : NoDup L.*1) by (by rewrite HL1).
  set (dir := list_to_map L : directory).
  assert (Hdir : ∀ x, x ∈ chunks → dir !! fname name x = Some x.2).
  { intros x Hx. apply elem_of_list_to_map_1; [done|].
    rewrite HL. apply list_elem_of_fmap. by exists x. }
  assert (Hname : dir !! name = None).
  { apply not_elem_of_list_to_map_1. rewrite HL1, list_elem_of_fmap.
    intros (x & Hx & _). by apply (target_name_ne name (Uploader.decimal x.1)). }
  assert (Hscan : filter (λ f, loose_eq cmp name f = false) (scandir dir)
                  ≡ₚ fname name <$> chunks).
  { unfold scandir, dir. rewrite map_to_list_to_map by done. rewrite HL1.
    rewrite filter_all; [done|]. rewrite Forall_fmap. apply Forall_forall.
    intros x _. cbn. apply not_true_is_false. rewrite loose_eq_l by done.
    apply not_eq_sym, target_name_ne. }
  unfold combine_chunks.
  destruct (filter (λ f, loose_eq cmp name f = false) (scandir dir))
    as [|f1 [|f2 fl]] eqn:Hfl.
  - apply Permutation_nil_l in Hscan. symmetry in Hscan.
    apply fmap_nil_inv in Hscan as ->. cbn. rewrite Hname.
    by rewrite lookup_insert_eq.
  - apply Permutation_singleton_l in Hscan.
    destruct chunks as [|x [|? ?]]; try discriminate Hscan.
    injection Hscan as ->. rewrite (Hdir x) by left.
    rewrite lookup_insert_eq. cbn. by rewrite app_nil_r.
  - assert (Hsort : sort cmp (f1 :: f2 :: fl) = fname name <$> chunks).
    { rewrite sort_bytewise.
      - apply (StronglySorted_unique String.le).
        + apply StronglySorted_merge_sort; apply _.
        + done.
        + by rewrite merge_sort_Permutation.
      - rewrite Hscan, Forall_fmap. apply Forall_forall.
        intros x _. by apply numeral_target_name. }
    rewrite Hsort, Hname, lookup_insert_eq. cbn [default].
    by rewrite foldl_contents.
Qed.

(** C8 on the code, for an upload named [1] in two chunks.  PHP finds the
    string 1 equal to 1.000000000000000 and different from
    1.000000000000003.  The first chunk's name is then taken for the target
    file and left out, the only chunk left is renamed, and the combined
    file holds the second chunk alone, whatever the order of arrival. *)
Theorem C8_numeric_name_loses_chunk
    (compare_numerals : string → string → comparison) :
  compare_numerals "1" "1.000000000000000" = Eq →
  compare_numerals "1" "1.000000000000003" ≠ Eq →
  let chunks := [(0, str "abc"); (3, str "def")] in
  covers 0 chunks (str "abcdef") ∧
  Forall (λ x, x.1 < 10 ^ 15) chunks ∧
  ∀ arrivals, arrivals ≡ₚ chunks →
    combine_chunks compare_numerals "1" (persist "1" arrivals ∅) !! "1"
    = Some (str "def").
Proof.
  intros H0 H3 chunks. split.
  { cbn. split; [done|]. split; [done|]. eexists. split; [reflexivity|].
    split; [done|]. split; [done|]. eexists. split; reflexivity. }
  split; [repeat constructor|].
  intros arrivals Hperm.
  assert (Hdir : persist "1" arrivals ∅ = persist "1" chunks ∅).
  { symmetry in Hperm. apply Permutation_length_2_inv in Hperm as [->| ->];
      vm_compute; reflexivity. }
  rewrite Hdir.
  assert (E0 : loose_eq compare_numerals "1" "1.000000000000000" = true).
  { unfold loose_eq, loose_compare. cbn. by rewrite H0. }
  assert (E3 : loose_eq compare_numerals "1" "1.000000000000003" = false).
  { unfold loose_eq, loose_compare. cbn.
    by destruct (compare_numerals "1" "1.000000000000003"). }
  unfold combine_chunks.
  assert (Hscan : scandir (persist "1" chunks ∅) ≡ₚ
                  ["1.000000000000000"; "1.000000000000003"]).
  { unfold scandir. rewrite persist_list_to_map.
    rewrite map_to_list_to_map by (apply (bool_decide_unpack _); vm_compute; exact I).
    vm_compute. apply Permutation_swap. }
  assert (Hlist : filter (λ f, loose_eq compare_numerals "1" f = false)
                    (scandir (persist "1" chunks ∅)) = ["1.000000000000003"]).
  { apply Permutation_singleton_r. rewrite Hscan.
    rewrite filter_cons_False by (by rewrite E0).
    rewrite filter_cons_True by done. done. }
  rewrite Hlist.
  replace (persist "1" chunks ∅ !! "1.000000000000003") with (Some (str "def"))
    by (vm_compute; reflexivity).
  apply lookup_insert_eq.
Qed.

Lemma C8_numeric_name_loses_chunk_witness :
  let chunks := [(0, str "abc"); (3, str "def")] in
  covers 0 chunks (str "abcdef") ∧
  Forall (λ x, x.1 < 10 ^ 15) chunks ∧
  ∀ arrivals, arrivals ≡ₚ chunks →
    combine_chunks by_value "1" (persist "1" arrivals ∅) !! "1"
    = Some (str "def").
Proof.
  apply (C8_numeric_name_loses_chunk by_value).
  - vm_compute. reflexivity.
  - vm_compute. discriminate.
Defined.

(** X20. Reassembly for uploads whose name is not numeric.  When the name
    has a character that no numeric string has, the chunks cover the source
    and their offsets have at most 15 digits: persisting them in any order
    under the zero-padded offset names, listing the stored files, sorting
    the names and concatenating the contents yields the source; on these
    names PHP's comparison is the numeric order of the offsets. *)
Theorem X20_reassembly_order_independent
    (compare_numerals : string → string → comparison) (name : string)
    (source : list Z) (chunks arrivals : list (Z * list Z)) :
  numeral name = false →
  covers 0 chunks source →
  Forall (λ x, x.1 < 10 ^ 15) chunks →
  arrivals ≡ₚ chunks →
  combine_chunks compare_numerals name (persist name arrivals ∅) !! name
  = Some source ∧
  ∀ x y, x ∈ chunks → y ∈ chunks →
         loose_compare compare_numerals (fname name x) (fname name y)
         = (x.1 ?= y.1).
Proof.
  intros Hnum Hcov Hmax Hperm.
  destruct (covers_spec _ _ _ Hcov) as (Hmin & Hsorted & Hcat).
  assert (Hrange : Forall (λ x, 0 ≤ x.1 < 10 ^ 15) chunks).
  { rewrite Forall_forall in Hmin, Hmax |- *. intros x Hx.
    split; [by apply Hmin|by apply Hmax]. }
  split.
  - rewrite <- Hcat. by apply combine_persisted.
  - rewrite Forall_forall in Hrange. intros x y Hx Hy.
    rewrite loose_compare_l by (by apply numeral_target_name).
    unfold fname. apply compare_target_name; auto.
Qed.

Lemma X20_reassembly_order_independent_witness :
  let chunks := [(0, str "abc"); (3, str "def"); (6, str "gh")] in
  let arrivals := [(6, str "gh"); (0, str "abc"); (3, str "def")] in
  combine_chunks by_value "file.bin" (persist "file.bin" arrivals ∅) !! "file.bin"
    = Some (str "abcdefgh") ∧
  ∀ x y, x ∈ chunks → y ∈ chunks →
         loose_compare by_value (fname "file.bin" x) (fname "file.bin" y)
         = (x.1 ?= y.1).
Proof.
  intros chunks arrivals.
  apply (X20_reassembly_order_independent by_value "file.bin" (str "abcdefgh")
           chunks arrivals).
  - reflexivity.
  - cbn. split; [done|]. split; [done|]. eexists. split; [reflexivity|].
    split; [done|]. split; [done|]. eexists. split; [reflexivity|].
    split; [done|]. split; [done|]. eexists. split; reflexivity.
  - repeat constructor.
  - unfold arrivals, chunks.
    etrans; [apply Permutation_swap|]. apply Permutation_skip, Permutation_swap.
Defined.

Example reassemble_abcdefgh :
  combine_chunks by_value "file.bin"
    (persist "file.bin" [(6, str "gh"); (0, str "abc"); (3, str "def")] ∅)
    !! "file.bin" = Some (str "abcdefgh").
Proof. vm_compute. reflexivity. Qed.

End receiver.

(** ** Rotation and the round functions *)

Section rotation.
Import JS Sha1.

Lemma testbit_int32_high x i :
  - 2 ^ 31 ≤ x < 2 ^ 31 → 31 ≤ i → Z.testbit x i = Z.testbit x 31.
Proof.
  intros Hx Hi. destruct (Z.neg_nonneg_cases x) as [Hneg|Hpos].
  - assert (Hn : 0 ≤ Z.lnot x < 2 ^ 31) by (unfold Z.lnot; lia).
    rewrite <- (Z.lnot_involutive x). generalize dependent (Z.lnot x).
    intros y Hy. rewrite !(Z.lnot_spec y) by lia. f_equal.
    destruct (decide (y = 0)) as [->|]; [by rewrite !Z.testbit_0_l|].
    assert (Z.log2 y < 31) by (apply Z.log2_lt_pow2; lia).
    by rewrite !Z.bits_above_log2 by lia.
  - destruct (decide (x = 0)) as [->|]; [by rewrite !Z.testbit_0_l|].
    assert (Z.log2 x < 31) by (apply Z.log2_lt_pow2; lia).
    by rewrite !Z.bits_above_log2 by lia.
Qed.

(** Two 32-bit integers with the same 32 low bits are equal. *)
Lemma int32_eq a b :
  - 2 ^ 31 ≤ a < 2 ^ 31 → - 2 ^ 31 ≤ b < 2 ^ 31 →
  (∀ i, 0 ≤ i < 32 → Z.testbit a i = Z.testbit b i) → a = b.
Proof.
  intros Ha Hb Hbits. apply Z.bits_inj'. intros i Hi.
  destruct (decide (i < 32)) as [|Hge]; [apply Hbits; lia|].
  rewrite (testbit_int32_high a i), (testbit_int32_high b i) by lia.
  apply Hbits. lia.
Qed.

Lemma int32_of_bits x :
  (∀ i, 31 ≤ i → Z.testbit x i = Z.testbit x 31) → - 2 ^ 31 ≤ x < 2 ^ 31.
Proof.
  intros Hbits. replace x with (ToInt32 x); [apply ToInt32_range|].
  apply Z.bits_inj'. intros i Hi.
  destruct (decide (i < 32)) as [|Hge]; [apply testbit_ToInt32; lia|].
  rewrite (testbit_int32_high (ToInt32 x) i) by (apply ToInt32_range || lia).
  rewrite testbit_ToInt32, (Hbits i) by lia. done.
Qed.

Lemma bor_range a b : - 2 ^ 31 ≤ bor a b < 2 ^ 31.
Proof.
  apply int32_of_bits. intros i Hi. unfold bor. rewrite !Z.lor_spec.
  by rewrite !(testbit_int32_high (ToInt32 _) i) by (apply ToInt32_range || lia).
Qed.

Lemma band_range a b : - 2 ^ 31 ≤ band a b < 2 ^ 31.
Proof.
  apply int32_of_bits. intros i Hi. unfold band. rewrite !Z.land_spec.
  by rewrite !(testbit_int32_high (ToInt32 _) i) by (apply ToInt32_range || lia).
Qed.

Lemma bxor_range a b : - 2 ^ 31 ≤ bxor a b < 2 ^ 31.
Proof.
  apply int32_of_bits. intros i Hi. unfold bxor. rewrite !Z.lxor_spec.
  by rewrite !(testbit_int32_high (ToInt32 _) i) by (apply ToInt32_range || lia).
Qed.

Lemma testbit_band a b i :
  0 ≤ i < 32 → Z.testbit (band a b) i = Z.testbit a i && Z.testbit b i.
Proof. intros. unfold band. by rewrite Z.land_spec, !testbit_ToInt32. Qed.

Lemma testbit_bxor a b i :
  0 ≤ i < 32 → Z.testbit (bxor a b) i = xorb (Z.testbit a i) (Z.testbit b i).
Proof. intros. unfold bxor. by rewrite Z.lxor_spec, !testbit_ToInt32. Qed.

Lemma testbit_bnot a i :
  0 ≤ i < 32 → Z.testbit (bnot a) i = negb (Z.testbit a i).
Proof. intros. unfold bnot. by rewrite Z.lnot_spec, testbit_ToInt32 by lia. Qed.

Lemma testbit_shru w s i :
  0 ≤ s < 32 → 0 ≤ i →
  Z.testbit (shru w s) i = bool_decide (i + s < 32) && Z.testbit w (i + s).
Proof.
  intros Hs Hi. unfold shru.
  replace (ToUint32 s mod 32) with s by (unfold ToUint32; lia).
  rewrite Z.shiftr_spec by lia. case_bool_decide.
  - by rewrite testbit_ToUint32 by lia.
  - by rewrite testbit_ToUint32_high by lia.
Qed.

Lemma testbit_leftRotate x n i :
  0 < n < 32 → 0 ≤ i < 32 →
  Z.testbit (leftRotate x n) i = Z.testbit x ((i - n) mod 32).
Proof.
  intros Hn Hi. unfold leftRotate.
  rewrite testbit_bor, testbit_shl, testbit_shru by lia.
  repeat case_bool_decide; try lia; cbn.
  - rewrite orb_false_r. f_equal. lia.
  - f_equal. lia.
Qed.

End rotation.

Section rotation_properties.
Import JS Sha1.

(** X1. [leftRotate] by 1..31 positions is a circular shift of the 32 low
    bits: the result is a 32-bit integer, its bit [i] is bit [i - n] (modulo
    32) of the input, and rotating on by [32 - n] gives the input back. *)
Theorem X1_leftRotate_circular (x n : Z) :
  0 < n < 32 →
  - 2 ^ 31 ≤ leftRotate x n < 2 ^ 31 ∧
  (∀ i, 0 ≤ i < 32 →
        Z.testbit (leftRotate x n) i = Z.testbit x ((i - n) mod 32)) ∧
  leftRotate (leftRotate x n) (32 - n) = ToInt32 x.
Proof.
  intros Hn. split; [apply bor_range|]. split.
  - intros i Hi. by apply testbit_leftRotate.
  - apply int32_eq; [apply bor_range|apply ToInt32_range|].
    intros i Hi. rewrite !testbit_leftRotate, testbit_ToInt32 by lia.
    f_equal. lia.
Qed.

Lemma X1_leftRotate_circular_witness :
  - 2 ^ 31 ≤ leftRotate 0xEFCDAB89 30 < 2 ^ 31 ∧
  (∀ i, 0 ≤ i < 32 →
        Z.testbit (leftRotate 0xEFCDAB89 30) i
        = Z.testbit 0xEFCDAB89 ((i - 30) mod 32)) ∧
  leftRotate (leftRotate 0xEFCDAB89 30) (32 - 30) = ToInt32 0xEFCDAB89.
Proof. apply (X1_leftRotate_circular 0xEFCDAB89 30). lia. Defined.

(** X2. The four round functions work bit by bit on the 32 low bits:
    function 0 chooses between [c] and [d] by [b], functions 1 and 3 are the
    parity of the three, function 2 is their majority; all return 32-bit
    integers. *)
Theorem X2_logicalFunctions_bitwise (b c d i : Z) :
  0 ≤ i < 32 →
  let f k := default (λ _ _ _, 0) (logicalFunctions !! k) in
  Z.testbit (f 0%nat b c d) i
    = (if Z.testbit b i then Z.testbit c i else Z.testbit d i) ∧
  Z.testbit (f 1%nat b c d) i
    = xorb (xorb (Z.testbit b i) (Z.testbit c i)) (Z.testbit d i) ∧
  Z.testbit (f 2%nat b c d) i
    = (Z.testbit b i && Z.testbit c i) || (Z.testbit b i && Z.testbit d i)
      || (Z.testbit c i && Z.testbit d i) ∧
  f 3%nat b c d = f 1%nat b c d ∧
  ∀ k, - 2 ^ 31 ≤ f k b c d < 2 ^ 31.
Proof.
  intros Hi f. unfold f. cbn [logicalFunctions lookup list_lookup from_option id].
  rewrite !testbit_bor, !testbit_bxor, !testbit_band, !testbit_bnot by lia.
  split; [by destruct (Z.testbit b i), (Z.testbit c i), (Z.testbit d i)|].
  split; [done|]. split; [done|]. split; [done|].
  intros [|[|[|[|k]]]];
    [apply bor_range|apply bxor_range|apply bor_range|apply bxor_range|].
  change (- 2 ^ 31 ≤ 0 < 2 ^ 31). lia.
Qed.

Lemma X2_logicalFunctions_bitwise_witness :
  let f k := default (λ _ _ _, 0) (logicalFunctions !! k) in
  Z.testbit (f 0%nat 0xEFCDAB89 0x98BADCFE 0x10325476) 31
    = (if Z.testbit 0xEFCDAB89 31 then Z.testbit 0x98BADCFE 31
       else Z.testbit 0x10325476 31) ∧
  Z.testbit (f 1%nat 0xEFCDAB89 0x98BADCFE 0x10325476) 31
    = xorb (xorb (Z.testbit 0xEFCDAB89 31) (Z.testbit 0x98BADCFE 31))
           (Z.testbit 0x10325476 31) ∧
  Z.testbit (f 2%nat 0xEFCDAB89 0x98BADCFE 0x10325476) 31
    = (Z.testbit 0xEFCDAB89 31 && Z.testbit 0x98BADCFE 31)
      || (Z.testbit 0xEFCDAB89 31 && Z.testbit 0x10325476 31)
      || (Z.testbit 0x98BADCFE 31 && Z.testbit 0x10325476 31) ∧
  f 3%nat 0xEFCDAB89 0x98BADCFE 0x10325476
    = f 1%nat 0xEFCDAB89 0x98BADCFE 0x10325476 ∧
  ∀ k, - 2 ^ 31 ≤ f k 0xEFCDAB89 0x98BADCFE 0x10325476 < 2 ^ 31.
Proof.
  apply (X2_logicalFunctions_bitwise 0xEFCDAB89 0x98BADCFE 0x10325476 31). lia.
Defined.

End rotation_properties.

(** ** Blocks and their bytes *)

Section block_properties.
Import JS Sha1.

Lemma bytes4_binary w : is_binary (bytes4 w).
Proof.
  unfold bytes4. cbn [seq fmap list_fmap]. repeat constructor;
    rewrite band_0xff; lia.
Qed.

Lemma length_bytes4_bind (aBlock : list Z) :
  length (aBlock ≫= bytes4) = (4 * length aBlock)%nat.
Proof.
  induction aBlock as [|w aBlock IH]; [done|].
  cbn [mbind list_bind]. rewrite length_app, IH. cbn. lia.
Qed.

Lemma bytes4_bind_binary (aBlock : list Z) : is_binary (aBlock ≫= bytes4).
Proof.
  induction aBlock as [|w aBlock IH]; [constructor|].
  apply Forall_app. split; [apply bytes4_binary|done].
Qed.

Lemma block_is_block s i : is_block (block s i).
Proof.
  split; [done|]. unfold block. rewrite Forall_fmap. apply Forall_forall.
  intros j _. apply bor_range.
Qed.

Lemma chunk_is_block s : Forall is_block (chunk s).
Proof.
  rewrite chunk_blocks, Forall_fmap. apply Forall_forall. intros i _.
  apply block_is_block.
Qed.

Lemma length_chunk s : length (chunk s) = ((length s + 63) / 64)%nat.
Proof. unfold chunk. by rewrite length_fmap, length_seq. Qed.

(** X3. [chunk] cuts a string of any characters into [ceil (length / 64)]
    blocks of 16 words, every word a 32-bit integer; only the empty string
    has no block. *)
Theorem X3_chunk_shape (sInput : jsstring) :
  length (chunk sInput) = ((length sInput + 63) / 64)%nat ∧
  (chunk sInput = [] ↔ sInput = []) ∧
  Forall is_block (chunk sInput).
Proof.
  split; [apply length_chunk|]. split; [|apply chunk_is_block].
  split.
  - intros Hnil. apply (f_equal length) in Hnil. rewrite length_chunk in Hnil.
    destruct sInput; [done|]. cbn [length] in Hnil. lia.
  - by intros ->.
Qed.

(** X5. For a block of 16 words and [0 <= n <= 64], [extractBlock] returns
    exactly [n] characters, all of them bytes. *)
Theorem X5_extractBlock_length (aBlock : list Z) (n : Z) :
  length aBlock = 16%nat → 0 ≤ n ≤ 64 →
  Z.of_nat (length (extractBlock aBlock n)) = n ∧
  is_binary (extractBlock aBlock n).
Proof.
  intros Hlen Hn.
  destruct (decide (n = 0)) as [->|Hne];
    [split; [reflexivity|exact (Forall_nil_2 _)]|].
  replace n with (Z.of_nat (Z.to_nat n)) by lia.
  rewrite extractBlock_take by (done || lia). split.
  - rewrite length_take, length_bytes4_bind, Hlen. lia.
  - apply Forall_take, bytes4_bind_binary.
Qed.

Lemma X5_extractBlock_length_witness :
  Z.of_nat (length (extractBlock (replicate 16 (-1)) 7)) = 7 ∧
  is_binary (extractBlock (replicate 16 (-1)) 7).
Proof. apply (X5_extractBlock_length (replicate 16 (-1)) 7); [reflexivity|lia]. Defined.

Lemma extractBlock_full d :
  is_binary d → (1 ≤ length d ≤ 64)%nat →
  extractBlock (block d 0) 64 = d ++ replicate (64 - length d) 0.
Proof.
  intros Hd Hlen. rewrite (extractBlock_take _ 64) by (done || lia).
  rewrite block_bytes by done.
  rewrite take_ge by (by rewrite length_fmap, length_seq).
  apply list_eq. intros i. rewrite list_lookup_fmap.
  destruct (decide (i < 64)%nat) as [Hi|Hi].
  - rewrite lookup_seq_lt by done. cbn.
    destruct (decide (i < length d)%nat) as [Hid|Hid].
    + rewrite lookup_app_l by done.
      destruct (lookup_lt_is_Some_2 d i Hid) as [x Hx]. by rewrite Hx.
    + rewrite lookup_app_r by lia. rewrite lookup_replicate_2 by lia.
      by rewrite lookup_ge_None_2 by lia.
  - rewrite lookup_seq_ge by lia. cbn. symmetry. apply lookup_ge_None_2.
    rewrite length_app, length_replicate. lia.
Qed.

Lemma chunk_extract_all (n : nat) (s : jsstring) :
  (length s ≤ 64 * n)%nat → is_binary s →
  chunk s ≫= (λ aBlock, extractBlock aBlock 64)
  = s ++ replicate (64 * ((length s + 63) / 64) - length s) 0.
Proof.
  revert s. induction n as [|n IH]; intros s Hlen Hs.
  - destruct s; [done|]. cbn in Hlen. lia.
  - destruct (decide (length s ≤ 64)%nat) as [Hshort|Hlong].
    + destruct (decide (s = [])) as [->|Hne]; [done|].
      pose proof (length_pos s Hne).
      rewrite chunk_short by lia. cbn [mbind list_bind]. rewrite app_nil_r.
      rewrite extractBlock_full by (done || lia). do 2 f_equal. lia.
    + rewrite <- (take_drop 64 s) at 1.
      rewrite (chunk_app _ _ 1) by (rewrite length_take; lia).
      rewrite bind_app.
      rewrite (IH (drop 64 s)) by (rewrite ?length_drop; try lia; by apply Forall_drop).
      rewrite chunk_short by (rewrite length_take; lia).
      cbn [mbind list_bind]. rewrite app_nil_r.
      rewrite extractBlock_full by (rewrite ?length_take; try lia; by apply Forall_take).
      rewrite length_take, length_drop.
      replace (64 - 64 `min` length s)%nat with 0%nat by lia. cbn [replicate].
      rewrite app_nil_r, (assoc_L (++)), take_drop. f_equal. f_equal. lia.
Qed.

(** X4. Round trip of [chunk] and [extractBlock]: reading 64 characters back
    from every block of a binary string gives the string followed by the
    zeros that fill its last block. *)
Theorem X4_chunk_extractBlock (sInput : jsstring) :
  is_binary sInput →
  chunk sInput ≫= (λ aBlock, extractBlock aBlock 64)
  = sInput ++ replicate (64 * length (chunk sInput) - length sInput) 0.
Proof.
  intros Hs. rewrite (chunk_extract_all (length sInput)) by (done || lia).
  do 3 f_equal. unfold chunk. by rewrite length_fmap, length_seq.
Qed.

Lemma X4_chunk_extractBlock_witness :
  chunk (replicate 70 65) ≫= (λ aBlock, extractBlock aBlock 64)
  = replicate 70 65
    ++ replicate (64 * length (chunk (replicate 70 65)) - length (replicate 70 65)) 0.
Proof.
  apply (X4_chunk_extractBlock (replicate 70 65)).
  vm_compute. repeat constructor; discriminate.
Defined.

End block_properties.

(** ** The counter, the encoder and the rendering of the digest *)

Section state_properties.
Import JS Sha1.

(** X6. Before [finalize], a sequence of [feed] calls never throws, and the
    counter [nAccumulatedMessageLength] grows by the number of characters
    fed, whatever the characters. *)
Theorem X6_feeds_count (aInputs : list jsstring) (this : t) :
  feed_replaced this = false →
  ∃ this', feeds aInputs this = Normal this' ∧
           feed_replaced this' = false ∧
           nAccumulatedMessageLength this'
           = nAccumulatedMessageLength this + Z.of_nat (length (concat aInputs)).
Proof.
  revert this. induction aInputs as [|x xs IH]; intros this Hf.
  - exists this. cbn. repeat split; [done|lia].
  - rewrite feeds_cons. unfold feed. rewrite Hf. cbn [bind].
    destruct (IH (prototype_feed x false this)) as (this' & Hfeeds & Hrep & Hn).
    { by destruct x. }
    exists this'. split; [done|]. split; [done|]. rewrite Hn.
    cbn [concat]. rewrite length_app. destruct x; cbn; lia.
Qed.

Lemma X6_feeds_count_witness :
  ∃ this', feeds [str "123"; []; str "456789"] new = Normal this' ∧
           feed_replaced this' = false ∧
           nAccumulatedMessageLength this'
           = nAccumulatedMessageLength new
             + Z.of_nat (length (concat [str "123"; []; str "456789"])).
Proof. apply (X6_feeds_count [str "123"; []; str "456789"] new). reflexivity. Defined.

Lemma bor_small a b k :
  0 ≤ k ≤ 31 → 0 ≤ a < 2 ^ k → 0 ≤ b < 2 ^ k → 0 ≤ bor a b < 2 ^ k.
Proof.
  intros Hk Ha Hb. unfold bor.
  assert (2 ^ k ≤ 2 ^ 31) by (apply Z.pow_le_mono_r; lia).
  rewrite !ToInt32_small by lia.
  split; [apply Z.lor_nonneg; lia|].
  destruct (decide (Z.lor a b = 0)) as [->|Hne]; [lia|].
  apply Z.log2_lt_pow2; [pose proof (proj2 (Z.lor_nonneg a b)); lia|].
  rewrite Z.log2_lor by lia.
  assert (Hlog : ∀ c, 0 ≤ c < 2 ^ k → c ≠ 0 → Z.log2 c < k)
    by (intros; apply Z.log2_lt_pow2; lia).
  destruct (decide (a = 0)) as [Ha0|Ha0]; destruct (decide (b = 0)) as [Hb0|Hb0].
  - subst. done.
  - subst. change (Z.log2 0) with 0. pose proof (Hlog b Hb Hb0).
    pose proof (Z.log2_nonneg b). lia.
  - subst. change (Z.log2 0) with 0. pose proof (Hlog a Ha Ha0).
    pose proof (Z.log2_nonneg a). lia.
  - pose proof (Hlog a Ha Ha0). pose proof (Hlog b Hb Hb0). lia.
Qed.

Lemma band_0x3f x : band x 0x3f = x mod 64.
Proof.
  unfold band. change (ToInt32 63) with (Z.ones 6).
  rewrite Z.land_ones by lia. apply (ToInt32_mod_pow2 x 6). lia.
Qed.

End state_properties.

Section encoder.
Import JS Sha1.

Lemma below_forall (n : nat) (P : Z → bool) :
  forallb P (Z.of_nat <$> seq 0 n) = true →
  ∀ x, 0 ≤ x < Z.of_nat n → P x = true.
Proof.
  intros Hall x Hx. rewrite forallb_forall in Hall. apply Hall.
  apply list_elem_of_In, list_elem_of_fmap. exists (Z.to_nat x).
  split; [lia|]. apply elem_of_seq. lia.
Qed.

Lemma bor_192 x : 0 ≤ x < 32 → bor 0xc0 x = 192 + x.
Proof.
  intros Hx. apply Z.eqb_eq.
  by apply (below_forall 32 (λ x, bor 0xc0 x =? 192 + x)).
Qed.

Lemma bor_224 x : 0 ≤ x < 16 → bor 0xe0 x = 224 + x.
Proof.
  intros Hx. apply Z.eqb_eq.
  by apply (below_forall 16 (λ x, bor 0xe0 x =? 224 + x)).
Qed.

Lemma bor_128 x : 0 ≤ x < 64 → bor 0x80 x = 128 + x.
Proof.
  intros Hx. apply Z.eqb_eq.
  by apply (below_forall 64 (λ x, bor 0x80 x =? 128 + x)).
Qed.

Lemma utf8Encode_cons c s : utf8Encode (c :: s) = utf8Encode [c] ++ utf8Encode s.
Proof.
  unfold utf8Encode. change (c :: s) with ([c] ++ s). by rewrite !bind_app.
Qed.

Lemma utf8Encode_char c : 0 ≤ c < 65536 → utf8Encode [c] = utf8_char c.
Proof.
  intros Hc. unfold utf8Encode, utf8_char.
  cbn [mbind list_bind app].
  destruct (Z.ltb_spec c 128) as [H1|H1].
  - replace (128 <=? c) with false by lia. cbn [andb app mbind list_bind].
    replace (2048 <=? c) with false by lia. cbn [andb app]. done.
  - replace (128 <=? c) with true by lia.
    destruct (Z.ltb_spec c 2048) as [H2|H2].
    + replace (c <=? 2047) with true by lia. cbn [andb].
      assert (bor 0xc0 (c ≫ 6) = 192 + c / 64) as ->.
      { rewrite Z.shiftr_div_pow2 by lia. change (2 ^ 6) with 64.
        apply bor_192. lia. }
      assert (bor 0x80 (band c 0x3f) = 128 + c mod 64) as ->.
      { rewrite band_0x3f. apply bor_128. lia. }
      cbn [app mbind list_bind].
      replace (2048 <=? 192 + c / 64) with false by lia.
      replace (2048 <=? 128 + c mod 64) with false by lia. cbn [andb app]. done.
    + replace (c <=? 2047) with false by lia. cbn [andb app mbind list_bind].
      replace (2048 <=? c) with true by lia. replace (c <=? 65535) with true by lia.
      cbn [andb app].
      assert (bor 0xe0 (c ≫ 12) = 224 + c / 4096) as ->.
      { rewrite Z.shiftr_div_pow2 by lia. change (2 ^ 12) with 4096.
        apply bor_224. lia. }
      assert (bor 0x80 (band (c ≫ 6) 0x3f) = 128 + (c / 64) mod 64) as ->.
      { rewrite band_0x3f, Z.shiftr_div_pow2 by lia. change (2 ^ 6) with 64.
        apply bor_128. lia. }
      assert (bor 0x80 (band c 0x3f) = 128 + c mod 64) as ->.
      { rewrite band_0x3f. apply bor_128. lia. }
      done.
Qed.

Lemma utf8Encode_nonempty c s : utf8Encode (c :: s) ≠ [].
Proof.
  rewrite utf8Encode_cons. unfold utf8Encode at 1. cbn [mbind list_bind app].
  destruct ((128 <=? c) && (c <=? 2047)); cbn [app mbind list_bind].
  - destruct ((2048 <=? bor 192 (c ≫ 6)) && (bor 192 (c ≫ 6) <=? 65535)); done.
  - destruct ((2048 <=? c) && (c <=? 65535)); done.
Qed.

(** X7. [utf8Encode] writes every character of the Basic Multilingual Plane
    as its UTF-8 bytes: one byte below 0x80, two below 0x800, three
    otherwise.  The result is a binary string, and ASCII text is unchanged. *)
Theorem X7_utf8Encode (sInput : jsstring) :
  Forall (λ c, 0 ≤ c < 65536) sInput →
  utf8Encode sInput = sInput ≫= utf8_char ∧
  is_binary (utf8Encode sInput) ∧
  (length sInput ≤ length (utf8Encode sInput) ≤ 3 * length sInput)%nat ∧
  (Forall (λ c, c < 128) sInput → utf8Encode sInput = sInput).
Proof.
  induction 1 as [|c s Hc Hs (IH1 & IH2 & IH3 & IH4)].
  - repeat split; try done; constructor.
  - rewrite utf8Encode_cons, utf8Encode_char by done.
    cbn [mbind list_bind]. rewrite <- IH1.
    assert (Hchar : is_binary (utf8_char c) ∧ (1 ≤ length (utf8_char c) ≤ 3)%nat
                    ∧ (c < 128 → utf8_char c = [c])).
    { unfold utf8_char. destruct (Z.ltb_spec c 128); [|destruct (Z.ltb_spec c 2048)].
      - repeat split; [|cbn; lia..]. repeat constructor; lia.
      - repeat split; [|cbn; lia..|lia]. repeat constructor; lia.
      - repeat split; [|cbn; lia..|lia]. repeat constructor; lia. }
    destruct Hchar as (Hbin & Hlen & Hascii).
    split; [done|]. split; [by apply Forall_app|].
    split; [rewrite length_app; cbn [length]; lia|].
    intros [Hc128 Hs128]%Forall_cons. rewrite Hascii, IH4 by done. done.
Qed.

Lemma X7_utf8Encode_witness :
  let s : jsstring := [0x41; 0xe9; 0x20ac] in
  utf8Encode s = s ≫= utf8_char ∧
  is_binary (utf8Encode s) ∧
  (length s ≤ length (utf8Encode s) ≤ 3 * length s)%nat ∧
  (Forall (λ c, c < 128) s → utf8Encode s = s).
Proof. apply (X7_utf8Encode [0x41; 0xe9; 0x20ac]). repeat constructor; lia. Defined.

(** X8. Feeding with [bUnicode] set is feeding the encoded string: on every
    instance [feed (s, true)] and [feed (utf8Encode (s), false)] agree, and
    the counter then counts encoded characters. *)
Theorem X8_feed_unicode (sInput : jsstring) (this : t) :
  feed sInput true this = feed (utf8Encode sInput) false this ∧
  (feed_replaced this = false →
   ∃ this', feed sInput true this = Normal this' ∧
            nAccumulatedMessageLength this'
            = nAccumulatedMessageLength this
              + Z.of_nat (length (utf8Encode sInput))).
Proof.
  assert (Hp : prototype_feed sInput true this
               = prototype_feed (utf8Encode sInput) false this).
  { destruct sInput as [|c s]; [done|].
    pose proof (utf8Encode_nonempty c s) as Hne.
    unfold prototype_feed. by destruct (utf8Encode (c :: s)). }
  split.
  - unfold feed. by rewrite Hp.
  - intros Hf. unfold feed. rewrite Hf. eexists. split; [done|].
    rewrite Hp. unfold prototype_feed.
    destruct (utf8Encode sInput); cbn [nAccumulatedMessageLength length]; lia.
Qed.

Lemma X8_feed_unicode_witness :
  feed [0x41; 0xe9; 0x20ac] true new
  = feed (utf8Encode [0x41; 0xe9; 0x20ac]) false new ∧
  (feed_replaced new = false →
   ∃ this', feed [0x41; 0xe9; 0x20ac] true new = Normal this' ∧
            nAccumulatedMessageLength this'
            = nAccumulatedMessageLength new
              + Z.of_nat (length (utf8Encode [0x41; 0xe9; 0x20ac]))).
Proof. apply (X8_feed_unicode [0x41; 0xe9; 0x20ac] new). Defined.

End encoder.

Section rendering.
Import JS Sha1.

Lemma binaryToHexString_digits w :
  binaryToHexString w
  = (λ i, hexDigit ((w mod 2 ^ 32 / 2 ^ (4 * i)) mod 16)) <$> [7; 6; 5; 4; 3; 2; 1; 0].
Proof.
  unfold binaryToHexString.
  cbn [seq fmap list_fmap reverse rev_append foldl app].
  change (Z.of_nat 0) with 0. change (Z.of_nat 1) with 1.
  change (Z.of_nat 2) with 2. change (Z.of_nat 3) with 3.
  change (Z.of_nat 4) with 4. change (Z.of_nat 5) with 5.
  change (Z.of_nat 6) with 6. change (Z.of_nat 7) with 7.
  rewrite !band_0xf, !shru_div by lia.
  rewrite !toString16_digit by lia. cbn [app].
  repeat (apply (f_equal2 cons); [do 4 f_equal; lia|]). reflexivity.
Qed.

Lemma bytes4_values w :
  bytes4 w = (λ i, (w mod 2 ^ 32 / 2 ^ (8 * i)) mod 256) <$> [3; 2; 1; 0].
Proof.
  unfold bytes4. cbn [seq fmap list_fmap].
  change (Z.of_nat 0) with 0. change (Z.of_nat 1) with 1.
  change (Z.of_nat 2) with 2. change (Z.of_nat 3) with 3.
  rewrite !band_0xff, !shru_div by lia.
  repeat (apply (f_equal2 cons); [do 3 f_equal; lia|]). reflexivity.
Qed.

Lemma hexDigit_value n : 0 ≤ n < 16 → hexDigitValue (hexDigit n) = n ∧ is_hex (hexDigit n).
Proof.
  intros Hn. unfold hexDigitValue, hexDigit, is_hex.
  destruct (Z.ltb_spec n 10); [destruct (Z.ltb_spec (48 + n) 58)
                              |destruct (Z.ltb_spec (87 + n) 58)]; lia.
Qed.

Lemma hexValue_word acc w :
  foldl (λ acc c, acc * 16 + hexDigitValue c) acc (binaryToHexString w)
  = acc * 2 ^ 32 + ToUint32 w.
Proof.
  rewrite binaryToHexString_digits. unfold ToUint32.
  generalize (w mod 2 ^ 32), (Z.mod_pos_bound w (2 ^ 32) ltac:(lia)).
  intros u Hu. cbn [fmap list_fmap foldl].
  rewrite !(λ n H, proj1 (hexDigit_value n H)) by lia.
  repeat match goal with
         | |- context [2 ^ ?e] =>
             let v := eval vm_compute in (2 ^ e) in change (2 ^ e) with v
         end.
  change (2 ^ 32) with 4294967296 in Hu. lia.
Qed.

Lemma beValue_word acc w :
  foldl (λ acc c, acc * 256 + c) acc (bytes4 w) = acc * 2 ^ 32 + ToUint32 w.
Proof.
  rewrite bytes4_values. unfold ToUint32.
  generalize (w mod 2 ^ 32), (Z.mod_pos_bound w (2 ^ 32) ltac:(lia)).
  intros u Hu. cbn [fmap list_fmap foldl].
  repeat match goal with
         | |- context [2 ^ ?e] =>
             let v := eval vm_compute in (2 ^ e) in change (2 ^ e) with v
         end.
  change (2 ^ 32) with 4294967296 in Hu. lia.
Qed.

Lemma binaryToHexString_hex w : Forall is_hex (binaryToHexString w).
Proof.
  rewrite binaryToHexString_digits. cbn [fmap list_fmap].
  repeat (apply Forall_cons_2; [apply hexDigit_value; lia|]). apply Forall_nil_2.
Qed.

(** X9. The two renderings of the digest can be read back: the hexadecimal
    string consists of digits 0-9 and a-f and denotes the 160-bit number
    made of the five accumulators taken modulo 2^32, most significant
    first; the binary string consists of bytes and holds the same number in
    big-endian order. *)
Theorem X9_digest_read_back (this : t) :
  Forall is_hex (formatHashHex this) ∧
  is_binary (formatHashBinary this) ∧
  hexValue (formatHashHex this) = accumulated (aResults this) ∧
  beValue (formatHashBinary this) = accumulated (aResults this) ∧
  0 ≤ accumulated (aResults this) < 2 ^ 160.
Proof.
  split; [|split; [|split; [|split]]].
  - unfold formatHashHex. rewrite !Forall_app.
    repeat split; apply binaryToHexString_hex.
  - rewrite formatHashBinary_bytes. unfold is_binary. rewrite !Forall_app.
    repeat split; apply bytes4_binary.
  - unfold hexValue, formatHashHex, accumulated.
    rewrite !foldl_app, !hexValue_word. done.
  - unfold beValue, accumulated. rewrite formatHashBinary_bytes.
    rewrite !foldl_app, !beValue_word. done.
  - unfold accumulated, ToUint32. cbn [foldl].
    pose proof (Z.mod_pos_bound (h0 (aResults this)) (2 ^ 32) ltac:(lia)).
    pose proof (Z.mod_pos_bound (h1 (aResults this)) (2 ^ 32) ltac:(lia)).
    pose proof (Z.mod_pos_bound (h2 (aResults this)) (2 ^ 32) ltac:(lia)).
    pose proof (Z.mod_pos_bound (h3 (aResults this)) (2 ^ 32) ltac:(lia)).
    pose proof (Z.mod_pos_bound (h4 (aResults this)) (2 ^ 32) ltac:(lia)).
    assert (Hstep : ∀ acc B u, 0 ≤ acc < B → 0 ≤ u < 2 ^ 32 →
                               0 ≤ acc * 2 ^ 32 + u < B * 2 ^ 32) by (intros; nia).
    change (2 ^ 160) with (1 * 2 ^ 32 * 2 ^ 32 * 2 ^ 32 * 2 ^ 32 * 2 ^ 32).
    repeat (apply Hstep; [|done]). lia.
Qed.

End rendering.

(** ** Padding *)

Section padding.
Import JS Sha1.

Lemma array_set_lt (a : list Z) i v :
  (i < length a)%nat → array_set a i v = <[i := v]> a.
Proof. intros. unfold array_set. by rewrite decide_True. Qed.

Lemma byteAt_bor a b (j : nat) :
  (j < 4)%nat →
  band (shru (bor a b) (24 - Z.of_nat j * 8)) 0xff
  = Z.lor (band (shru a (24 - Z.of_nat j * 8)) 0xff)
          (band (shru b (24 - Z.of_nat j * 8)) 0xff).
Proof.
  intros Hj. apply Z.bits_inj'. intros n Hn.
  rewrite Z.lor_spec, !testbit_byteAt by lia.
  case_bool_decide; [|done]. cbn [andb]. apply testbit_bor. lia.
Qed.

Lemma bytes4_bor a b : bytes4 (bor a b) = zip_with Z.lor (bytes4 a) (bytes4 b).
Proof.
  unfold bytes4. cbn [seq fmap list_fmap zip_with].
  by rewrite !byteAt_bor by lia.
Qed.

Lemma bytes4_marker (b : nat) :
  (b < 4)%nat →
  bytes4 (shl 0x80 (24 - Z.of_nat b * 8)) = <[b := 128]> [0; 0; 0; 0].
Proof. intros Hb. by destruct b as [|[|[|[|b]]]]; [..|lia]. Qed.

Lemma bytes4_length w : length (bytes4 w) = 4%nat.
Proof. done. Qed.

(** Setting the marker bit in word [w] writes the byte 0x80 at position
    [4 w + b], provided that byte was zero. *)
Lemma bytes_set_marker (aBlock : list Z) (w b : nat) :
  (w < length aBlock)%nat → (b < 4)%nat →
  (aBlock ≫= bytes4) !! (4 * w + b)%nat = Some 0 →
  array_set aBlock w (bor (array_get aBlock w) (shl 0x80 (24 - Z.of_nat b * 8)))
    ≫= bytes4
  = <[(4 * w + b)%nat := 128]> (aBlock ≫= bytes4).
Proof.
  intros Hw Hb. rewrite array_set_lt by done. unfold array_get.
  revert w Hw. induction aBlock as [|x aBlock IH]; intros w Hw Hzero;
    [cbn in Hw; lia|].
  destruct w as [|w].
  - cbn [lookup list_lookup nan0 from_option id insert list_insert mbind list_bind].
    cbn [mbind list_bind] in Hzero.
    rewrite lookup_app_l in Hzero by (rewrite bytes4_length; lia).
    rewrite insert_app_l by (rewrite bytes4_length; lia). f_equal.
    rewrite bytes4_bor, bytes4_marker by done.
    replace (4 * 0 + b)%nat with b in * by lia.
    unfold bytes4 in *. cbn [seq fmap list_fmap] in *.
    destruct b as [|[|[|[|b]]]]; [..|lia];
      cbn [lookup list_lookup] in Hzero; injection Hzero as Hzero;
      cbn [insert list_insert zip_with]; rewrite Hzero, ?Z.lor_0_r; done.
  - cbn [lookup list_lookup insert list_insert mbind list_bind].
    cbn [length] in Hw. cbn [mbind list_bind] in Hzero.
    rewrite lookup_app_r in Hzero by (rewrite bytes4_length; lia).
    rewrite bytes4_length in Hzero.
    replace (4 * S w + b - 4)%nat with (4 * w + b)%nat in Hzero by lia.
    rewrite IH by (done || lia).
    replace (4 * S w + b)%nat with (length (bytes4 x) + (4 * w + b))%nat
      by (rewrite bytes4_length; lia).
    by rewrite insert_app_r.
Qed.

Lemma bytes_set_length (aBlock : list Z) x y :
  length aBlock = 16%nat →
  array_set (array_set aBlock 14 x) 15 y ≫= bytes4
  = take 56 (aBlock ≫= bytes4) ++ bytes4 x ++ bytes4 y.
Proof.
  intros Hlen.
  do 17 (destruct aBlock as [|? aBlock]; try discriminate Hlen). reflexivity.
Qed.

Lemma band_0xffffffff x : band x 0xffffffff = ToInt32 x.
Proof. unfold band. change (ToInt32 4294967295) with (-1). apply Z.land_m1_r. Qed.

Lemma bytes_length_words N :
  0 ≤ N < 2 ^ 53 →
  bytes4 (N / 2 ^ 29) ++ bytes4 (band (N * 8) 0xffffffff) = be64 (8 * N).
Proof.
  intros HN. rewrite band_0xffffffff, !bytes4_values. unfold be64.
  cbn [fmap list_fmap app]. rewrite ToInt32_mod.
  repeat match goal with
         | |- context [2 ^ ?e] =>
             let v := eval vm_compute in (2 ^ e) in change (2 ^ e) with v
         end.
  change (2 ^ 53) with 9007199254740992 in HN.
  repeat (apply (f_equal2 cons); [lia|]). reflexivity.
Qed.

Lemma block_bytes_padded d :
  is_binary d → (length d ≤ 64)%nat →
  block d 0 ≫= bytes4 = d ++ replicate (64 - length d) 0.
Proof.
  intros Hd Hlen. rewrite block_bytes by done.
  apply list_eq. intros i. rewrite list_lookup_fmap.
  destruct (decide (i < 64)%nat) as [Hi|Hi].
  - rewrite lookup_seq_lt by done. cbn.
    destruct (decide (i < length d)%nat) as [Hid|Hid].
    + rewrite lookup_app_l by done.
      destruct (lookup_lt_is_Some_2 d i Hid) as [x Hx]. by rewrite Hx.
    + rewrite lookup_app_r by lia. rewrite lookup_replicate_2 by lia.
      by rewrite lookup_ge_None_2 by lia.
  - rewrite lookup_seq_ge by lia. cbn. symmetry. apply lookup_ge_None_2.
    rewrite length_app, length_replicate. lia.
Qed.

Lemma block_length s i : length (block s i) = 16%nat.
Proof. done. Qed.

End padding.

Section padding_bytes.
Import JS Sha1.

Lemma blockBytes_cons aBlock aWords :
  blockBytes (aBlock :: aWords) = (aBlock ≫= bytes4) ++ blockBytes aWords.
Proof. done. Qed.

Lemma rfc_padding_unfold n k :
  k = ((119 - n mod 64) mod 64)%nat →
  rfc_padding n = 128 :: replicate k 0 ++ be64 (8 * Z.of_nat n).
Proof. by intros ->. Qed.

Lemma padLastBlock_bytes (d : jsstring) (n : nat) :
  is_binary d → (0 < n)%nat → length d = payload n → Z.of_nat n < 2 ^ 53 →
  blockBytes (padLastBlock (Z.of_nat n) (block d 0)) = d ++ rfc_padding n.
Proof.
  intros Hd Hn Hlen Hmax. pose proof (payload_bounds n) as Hp.
  pose proof (block_bytes_padded d Hd ltac:(lia)) as HB.
  pose proof (bytes_length_words (Z.of_nat n) ltac:(lia)) as HL.
  unfold padLastBlock, rem.
  assert (Hb : Z.rem (Z.of_nat n) 4 = Z.of_nat (length d mod 4))
    by (unfold payload in *; lia).
  assert (Hw : Z.rem (Z.of_nat n / 4) 16 = Z.of_nat ((length d / 4) mod 16))
    by (unfold payload in *; lia).
  rewrite Hb, Hw. clear Hb Hw.
  destruct (decide (length d = 64%nat)) as [H64|H64].
  - (* the last block is complete: a second block carries the padding *)
    rewrite H64. change (Z.of_nat (64 / 4 mod 16)) with 0.
    change (Z.of_nat (64 mod 4)) with 0. cbn [Z.eqb andb Z.ltb Z.compare app].
    rewrite !blockBytes_cons, bytes_set_length, HB, HL by done.
    rewrite (rfc_padding_unfold n 55) by (unfold payload in *; lia).
    rewrite H64. cbn [replicate Nat.sub]. rewrite app_nil_r. f_equal.
  - set (w := (length d / 4)%nat). set (b := (length d mod 4)%nat).
    assert (Hwb : length d = (4 * w + b)%nat) by (unfold w, b; lia).
    assert (Hw16 : (w < 16)%nat) by (unfold w; lia).
    assert (Hb4 : (b < 4)%nat) by (unfold b; lia).
    replace (w mod 16)%nat with w by lia.
    replace ((0 =? Z.of_nat w) && (0 =? Z.of_nat b)) with false
      by (symmetry; apply andb_false_iff; lia).
    cbv beta iota zeta. rewrite Nat2Z.id.
    assert (HB1 :
      array_set (block d 0) w
        (bor (array_get (block d 0) w) (shl 128 (24 - Z.of_nat b * 8))) ≫= bytes4
      = d ++ 128 :: replicate (63 - length d) 0).
    { rewrite bytes_set_marker; [|done|done|].
      - rewrite HB, <- Hwb.
        replace (length d) with (length d + 0)%nat at 1 by lia.
        rewrite insert_app_r.
        by replace (64 - length d)%nat with (S (63 - length d)) by lia.
      - rewrite HB, <- Hwb. rewrite lookup_app_r by lia.
        apply lookup_replicate_2. lia. }
    destruct (Z.ltb_spec 13 (Z.of_nat w)) as [Hhigh|Hlow].
    + cbn [app]. rewrite !blockBytes_cons, HB1, bytes_set_length, HL by done.
      rewrite (rfc_padding_unfold n (119 - length d))
        by (unfold payload in *; lia).
      replace (119 - length d)%nat with (63 - length d + 56)%nat by lia.
      rewrite replicate_add. cbn [blockBytes mbind list_bind].
      rewrite app_nil_r, <- !(assoc_L (++)). cbn [app]. do 3 f_equal.
    + cbn [app]. rewrite !blockBytes_cons, bytes_set_length, HB1, HL
        by (by rewrite array_set_lt, length_insert by done).
      rewrite (rfc_padding_unfold n (55 - length d))
        by (unfold payload in *; lia).
      cbn [blockBytes mbind list_bind]. rewrite app_nil_r.
      rewrite take_app_ge by lia.
      replace (56 - length d)%nat with (S (55 - length d)) by lia.
      cbn [take]. rewrite take_replicate.
      replace ((55 - length d) `min` (63 - length d))%nat
        with (55 - length d)%nat by lia.
      by rewrite <- (assoc_L (++)).
Qed.

End padding_bytes.

Section padding_words.
Import JS Sha1.

Lemma bytes4_inj a b : is_int32 a → is_int32 b → bytes4 a = bytes4 b → a = b.
Proof.
  unfold is_int32. intros Ha Hb. rewrite !bytes4_values. cbn [fmap list_fmap].
  repeat match goal with
         | |- context [2 ^ ?e] =>
             let v := eval vm_compute in (2 ^ e) in change (2 ^ e) with v
         end.
  change (2 ^ 31) with 2147483648 in *.
  intros [= H3 H2 H1 H0]. lia.
Qed.

Lemma words_inj (la lb : list Z) :
  Forall is_int32 la → Forall is_int32 lb →
  la ≫= bytes4 = lb ≫= bytes4 → la = lb.
Proof.
  intros Ha. revert lb. induction Ha as [|a la Ha Hla IH]; intros lb Hb Heq.
  - destruct lb as [|b lb]; [done|]. discriminate Heq.
  - destruct Hb as [|b lb Hb Hlb]; [discriminate Heq|].
    cbn [mbind list_bind] in Heq.
    apply app_inj_1 in Heq as [H1 H2]; [|done].
    f_equal; [by apply bytes4_inj|by apply IH].
Qed.

Lemma blocks_inj (la lb : list (list Z)) :
  Forall is_block la → Forall is_block lb →
  blockBytes la = blockBytes lb → la = lb.
Proof.
  intros Ha. revert lb. induction Ha as [|a la [Ha1 Ha2] Hla IH]; intros lb Hb Heq.
  - destruct Hb as [|b lb [Hb1 Hb2] Hlb]; [done|].
    apply (f_equal length) in Heq. rewrite blockBytes_cons, length_app in Heq.
    rewrite length_bytes4_bind, Hb1 in Heq. cbn in Heq. lia.
  - destruct Hb as [|b lb [Hb1 Hb2] Hlb].
    + apply (f_equal length) in Heq. rewrite blockBytes_cons, length_app in Heq.
      rewrite length_bytes4_bind, Ha1 in Heq. cbn in Heq. lia.
    + rewrite !blockBytes_cons in Heq.
      apply app_inj_1 in Heq as [H1 H2];
        [|by rewrite !length_bytes4_bind, Ha1, Hb1].
      f_equal; [by apply words_inj|by apply IH].
Qed.

Lemma blockBytes_extract (l : list (list Z)) :
  Forall is_block l →
  blockBytes l = l ≫= (λ aBlock, extractBlock aBlock 64).
Proof.
  induction 1 as [|aBlock l [Hb _] Hl IH]; [done|].
  rewrite blockBytes_cons, IH. cbn [mbind list_bind]. f_equal.
  change 64 with (Z.of_nat 64).
  rewrite (extractBlock_take aBlock 64) by (done || lia).
  by rewrite take_ge by (rewrite length_bytes4_bind; lia).
Qed.

Lemma blockBytes_chunk (s : jsstring) :
  is_binary s → (length s mod 64 = 0)%nat → blockBytes (chunk s) = s.
Proof.
  intros Hs Hlen. rewrite blockBytes_extract by apply chunk_is_block.
  rewrite (chunk_extract_all (length s) s) by (done || lia).
  replace (64 * ((length s + 63) / 64) - length s)%nat with 0%nat by lia.
  apply app_nil_r.
Qed.

Lemma is_block_set aBlock i v :
  is_block aBlock → is_int32 v → (i < 16)%nat → is_block (array_set aBlock i v).
Proof.
  intros [Hlen Hall] Hv Hi. rewrite array_set_lt by lia. split.
  - by rewrite length_insert.
  - by apply Forall_insert.
Qed.

Lemma createEmptyBlock_is_block : is_block createEmptyBlock.
Proof. split; [done|]. repeat constructor; unfold is_int32; lia. Qed.

(** Every block [padLastBlock] returns has 16 words of 32 bits. *)
Lemma padLastBlock_is_block N aLastBlock :
  is_block aLastBlock → 0 ≤ N < 2 ^ 53 →
  Forall is_block (padLastBlock N aLastBlock).
Proof.
  intros HB HN. unfold padLastBlock, rem.
  assert (H14 : is_int32 (N / 2 ^ 29)).
  { unfold is_int32. change (2 ^ 53) with 9007199254740992 in HN.
    change (2 ^ 29) with 536870912. lia. }
  assert (H15 : is_int32 (band (N * 8) 0xffffffff)) by apply band_range.
  assert (Hm : ∀ x y, is_int32 (bor x y)) by (intros; apply bor_range).
  assert (Hw : (Z.to_nat (Z.rem (N / 4) 16) < 16)%nat) by lia.
  pose proof createEmptyBlock_is_block as HE.
  destruct ((0 =? Z.rem (N / 4) 16) && (0 =? Z.rem N 4)); cbv beta iota zeta;
    [change (13 <? 0) with false|destruct (13 <? Z.rem (N / 4) 16)];
    cbv beta iota zeta; cbn [app];
    repeat first [apply Forall_cons_2 | apply Forall_nil_2 | apply is_block_set];
    auto; lia.
Qed.

Lemma rfc_padding_binary n : 0 ≤ Z.of_nat n → is_binary (rfc_padding n).
Proof.
  intros _. unfold rfc_padding, be64. constructor; [lia|].
  apply Forall_app. split; [apply Forall_replicate; lia|].
  cbn [fmap list_fmap]. repeat constructor; lia.
Qed.

Lemma rfc_padding_length n :
  length (rfc_padding n) = (1 + (119 - n mod 64) mod 64 + 8)%nat.
Proof. unfold rfc_padding. cbn [length]. rewrite length_app, length_replicate. done. Qed.

Lemma padLastBlock_chunk (d : jsstring) (n : nat) :
  is_binary d → (0 < n)%nat → length d = payload n → Z.of_nat n < 2 ^ 53 →
  padLastBlock (Z.of_nat n) (block d 0) = chunk (d ++ rfc_padding n).
Proof.
  intros Hd Hn Hlen Hmax. apply blocks_inj.
  - apply padLastBlock_is_block; [apply block_is_block|lia].
  - apply chunk_is_block.
  - rewrite padLastBlock_bytes by done. symmetry. apply blockBytes_chunk.
    + apply is_binary_app; [done|]. apply rfc_padding_binary. lia.
    + rewrite length_app, rfc_padding_length, Hlen. unfold payload. lia.
Qed.

End padding_words.

Section padding_theorems.
Import JS Sha1.

(** X10. [padLastBlock] pads as RFC 3174 prescribes.  For a binary message
    of fewer than 2^53 bytes, the blocks it makes of the retained last block
    are the blocks of the retained bytes followed by 0x80, zeros up to 56
    modulo 64 and the 64-bit big-endian bit length of the whole message;
    two blocks are returned when the retained block holds 56 bytes or more
    (64 included), one otherwise. *)
Theorem X10_padLastBlock_rfc3174 (m : jsstring) :
  is_binary m → m ≠ [] → Z.of_nat (length m) < 2 ^ 53 →
  ∃ aLast,
    last (chunk m) = Some aLast ∧
    let sPending := drop (length m - payload (length m)) m in
    let aPadded := padLastBlock (Z.of_nat (length m)) aLast in
    aPadded = chunk (sPending ++ rfc_padding (length m)) ∧
    blockBytes aPadded = sPending ++ rfc_padding (length m) ∧
    length aPadded = (if decide (56 ≤ payload (length m))%nat then 2 else 1)%nat.
Proof.
  intros Hm Hne Hmax. pose proof (length_pos m Hne) as Hpos.
  pose proof (payload_bounds (length m)) as Hp.
  pose proof (payload_le (length m) Hpos) as Hple.
  exists (block (drop (length m - payload (length m)) m) 0).
  split; [by rewrite chunk_split, last_snoc by done|].
  set (d := drop _ m).
  assert (Hd : is_binary d) by (by apply is_binary_drop).
  assert (Hlen : length d = payload (length m))
    by (unfold d; rewrite length_drop; lia).
  cbv zeta. split; [by apply padLastBlock_chunk|].
  split; [by apply padLastBlock_bytes|].
  rewrite padLastBlock_chunk, length_chunk, length_app, rfc_padding_length by done.
  rewrite Hlen. unfold payload in *. case_decide; lia.
Qed.

Lemma X10_padLastBlock_rfc3174_witness :
  ∃ aLast,
    last (chunk (replicate 120 65)) = Some aLast ∧
    let sPending :=
      drop (length (replicate 120 65) - payload (length (replicate 120 65)))
           (replicate 120 65) in
    let aPadded := padLastBlock (Z.of_nat (length (replicate 120 65))) aLast in
    aPadded = chunk (sPending ++ rfc_padding (length (replicate 120 65))) ∧
    blockBytes aPadded = sPending ++ rfc_padding (length (replicate 120 65)) ∧
    length aPadded
    = (if decide (56 ≤ payload (length (replicate 120 65)))%nat then 2 else 1)%nat.
Proof.
  apply (X10_padLastBlock_rfc3174 (replicate 120 65)).
  - apply Forall_replicate. lia.
  - discriminate.
  - vm_compute. reflexivity.
Defined.

(** X11. For every way of feeding a non-empty binary message of fewer than
    2^53 bytes, the digest is the rendering of the accumulators obtained by
    compressing, from the initial constants, the 64-byte blocks of the
    message followed by its RFC 3174 padding: on non-empty input the
    instance computes SHA-1's padded iteration. *)
Theorem X11_digest_of_padded_message (aInputs : list jsstring) (bRaw : bool) :
  let m := concat aInputs in
  is_binary m → m ≠ [] → Z.of_nat (length m) < 2 ^ 53 →
  (length (m ++ rfc_padding (length m)) mod 64 = 0)%nat ∧
  digest aInputs bRaw =
    Normal
      (let this :=
         {| aResults :=
              feedHashWithBlocks (chunk (m ++ rfc_padding (length m)))
                (aResults new);
            aLastBlock := None;
            nAccumulatedMessageLength := Z.of_nat (length m);
            feed_replaced := true |} in
       if bRaw then formatHashBinary this else formatHashHex this).
Proof.
  intros m Hm Hne Hmax. pose proof (length_pos m Hne) as Hpos.
  pose proof (payload_bounds (length m)) as Hp.
  pose proof (payload_le (length m) Hpos) as Hple.
  split.
  { rewrite length_app, rfc_padding_length. lia. }
  rewrite digest_fed by (by apply is_binary_concat). fold m.
  set (n := (length m - payload (length m))%nat).
  assert (Hfed : fed m =
    {| aResults := feedHashWithBlocks (chunk (take n m)) (aResults new);
       aLastBlock := Some (block (drop n m) 0);
       nAccumulatedMessageLength := Z.of_nat (length m);
       feed_replaced := false |}) by (by destruct m).
  rewrite Hfed. unfold finalize.
  cbn [aLastBlock aResults nAccumulatedMessageLength feed_replaced fst].
  rewrite padLastBlock_chunk;
    [|by apply is_binary_drop|done|unfold n; rewrite length_drop; lia|done].
  assert (Hcat : feedHashWithBlocks (chunk (drop n m ++ rfc_padding (length m)))
                   (feedHashWithBlocks (chunk (take n m)) (aResults new))
                 = feedHashWithBlocks (chunk (m ++ rfc_padding (length m)))
                     (aResults new)).
  { rewrite <- (take_drop n m) at 4. rewrite <- (assoc_L (++)).
    rewrite (chunk_app (take n m) _ (n / 64))
      by (rewrite length_take; unfold n, payload; lia).
    unfold feedHashWithBlocks. by rewrite foldl_app. }
  rewrite Hcat. by destruct bRaw.
Qed.

Lemma X11_digest_of_padded_message_witness :
  let m := concat [str "abc"; str "def"] in
  (length (m ++ rfc_padding (length m)) mod 64 = 0)%nat ∧
  digest [str "abc"; str "def"] false =
    Normal
      (let this :=
         {| aResults :=
              feedHashWithBlocks (chunk (m ++ rfc_padding (length m)))
                (aResults new);
            aLastBlock := None;
            nAccumulatedMessageLength := Z.of_nat (length m);
            feed_replaced := true |} in
       formatHashHex this).
Proof.
  apply (X11_digest_of_padded_message [str "abc"; str "def"] false).
  - vm_compute. repeat constructor; discriminate.
  - discriminate.
  - vm_compute. reflexivity.
Defined.

End padding_theorems.

(** ** Sessions *)

Section sessions.
Import Uploader.

Lemma run_planFrom (fuel : nat) :
  ∀ o c s k k0 q0 f f0 r l,
    planFrom fuel (File o c s k0 q0 f0) = Some l →
    requests (replicate (S (length l)) true) (File o c s k (Some r) f) = r :: l ∧
    run (replicate (S (length l)) true) (File o c s k (Some r) f)
    = File (nOffset (run (replicate (S (length l)) true) (File o c s k (Some r) f)))
        c s k None true.
Proof.
  induction fuel as [|fuel IH]; intros o c s k k0 q0 f f0 r l; [done|].
  cbn [planFrom]. unfold processNextChunk.
  cbn [nOffset nChunksize oFile_size nRetriesLeft oRequest bFinished].
  destruct (o >=? s) eqn:Hos.
  - intros [= <-]. cbn [length replicate requests run foldl option_list app].
    unfold step, fpFinish, processNextChunk.
    cbn [nOffset nChunksize oFile_size nRetriesLeft oRequest bFinished].
    rewrite Hos. done.
  - destruct (planFrom fuel _) as [l'|] eqn:Hl'; [|done].
    intros [= <-]. cbn [length].
    assert (Hstep : step (File o c s k (Some r) f) true
                    = File (o + c) c s k
                        (Some (onmessage (Message s o c (o + c >=? s)))) f).
    { unfold step, fpFinish, processNextChunk.
      cbn [nOffset nChunksize oFile_size nRetriesLeft oRequest bFinished].
      by rewrite Hos. }
    change (replicate (S (S (length l'))) true)
      with (true :: replicate (S (length l')) true).
    cbn [requests run foldl oRequest option_list app]. rewrite Hstep.
    destruct (IH _ _ _ k _ _ f _ (onmessage (Message s o c (o + c >=? s))) _ Hl')
      as (Hreq & Hrun).
    unfold run in *. rewrite Hreq. split; [done|]. exact Hrun.
Qed.

(** X12. A session in which every transfer succeeds sends exactly the
    planned chunks, in order and once each, uses no retry, and ends with no
    request in flight; it is marked finished, except for an empty file, for
    which nothing is sent at all. *)
Theorem X12_successful_session (totalSize chunkSize : Z) :
  0 ≤ totalSize → 0 < chunkSize →
  ∃ l, plan totalSize chunkSize = Some l ∧
       let outcomes := replicate (length l) true in
       let this := run outcomes (start (new totalSize chunkSize)) in
       requests outcomes (start (new totalSize chunkSize)) = l ∧
       oRequest this = None ∧
       nRetriesLeft this = 3 ∧
       bFinished this = bool_decide (0 < totalSize).
Proof.
  intros Hsize Hchunk.
  destruct (planFrom_spec (S (Z.to_nat totalSize)) (new totalSize chunkSize))
    as (l & Hl & _); [done|lia|cbn; lia|].
  exists l. split; [done|]. revert Hl.
  unfold start, new. cbn [planFrom]. unfold processNextChunk.
  cbn [nOffset nChunksize oFile_size nRetriesLeft oRequest bFinished].
  destruct (Z.geb_spec 0 totalSize) as [Hz|Hnz].
  - intros [= <-]. cbn. rewrite bool_decide_eq_false_2 by lia. done.
  - destruct (planFrom _ _) as [l'|] eqn:Hl'; [|done]. intros [= <-].
    cbn [length postMessage uploadChunk
         nOffset nChunksize oFile_size nRetriesLeft oRequest bFinished].
    rewrite bool_decide_eq_true_2 by lia.
    destruct (run_planFrom _ _ _ _ 3 _ _ false _
                (onmessage (Message totalSize 0 chunkSize
                              (0 + chunkSize >=? totalSize))) _ Hl')
      as (Hreq & Hrun).
    cbv zeta. unfold uploadChunk.
    cbn [nOffset nChunksize oFile_size nRetriesLeft oRequest bFinished].
    split; [exact Hreq|]. rewrite Hrun. done.
Qed.

Lemma X12_successful_session_witness :
  ∃ l, plan 250000 100000 = Some l ∧
       let outcomes := replicate (length l) true in
       let this := run outcomes (start (new 250000 100000)) in
       requests outcomes (start (new 250000 100000)) = l ∧
       oRequest this = None ∧
       nRetriesLeft this = 3 ∧
       bFinished this = bool_decide (0 < 250000).
Proof. apply (X12_successful_session 250000 100000); lia. Defined.

Lemma run_no_request outcomes this : oRequest this = None → run outcomes this = this.
Proof.
  intros Hnone. induction outcomes as [|b outcomes IH]; [done|].
  cbn [run foldl]. unfold step at 2. rewrite Hnone. apply IH.
Qed.

Lemma run_exhausted outcomes this :
  0 ≤ nRetriesLeft this →
  (Z.to_nat (nRetriesLeft this) < length (filter (λ b : bool, b = false) outcomes))%nat →
  oRequest (run outcomes this) = None.
Proof.
  revert this. induction outcomes as [|b outcomes IH]; intros this Hpos Hlt.
  - cbn in Hlt. lia.
  - destruct (oRequest this) as [r|] eqn:Hr; [|by rewrite run_no_request].
    cbn [run foldl]. fold (run outcomes (step this b)). destruct b.
    + rewrite filter_cons_False in Hlt by done.
      apply IH; rewrite step_true_retries; done.
    + rewrite filter_cons_True in Hlt by done. cbn [length] in Hlt.
      pose proof (step_false_retries this) as Hs.
      rewrite Hr, bool_decide_eq_true_2 in Hs by (by eexists). cbn [andb] in Hs.
      destruct (Z.eqb_spec (nRetriesLeft this) 0) as [Hz|Hnz]; cbn [negb] in Hs.
      * rewrite run_no_request; [|]; unfold step, fpFinish; rewrite Hr;
          cbn [nRetriesLeft]; rewrite Hz; done.
      * apply IH; lia.
Qed.

(** X13. The fourth failed transfer of a session is the last event that
    counts: whatever the outcomes, once four of them are failures no request
    is in flight any more and later outcomes change nothing. *)
Theorem X13_retries_exhausted (totalSize chunkSize : Z) (outcomes more : list bool) :
  (4 ≤ length (filter (λ b : bool, b = false) outcomes))%nat →
  let this := run outcomes (start (new totalSize chunkSize)) in
  oRequest this = None ∧ run more this = this.
Proof.
  intros Hfail this.
  assert (Hnone : oRequest this = None).
  { apply run_exhausted.
    - unfold start, new, processNextChunk. cbn. destruct (0 >=? totalSize); cbn; lia.
    - assert (nRetriesLeft (start (new totalSize chunkSize)) = 3) as ->; [|lia].
      unfold start, new, processNextChunk. cbn. by destruct (0 >=? totalSize). }
  split; [done|by apply run_no_request].
Qed.

Lemma X13_retries_exhausted_witness :
  let this := run [false; true; false; false; true; false] (start (new 250000 100000)) in
  oRequest this = None ∧ run [true; false] this = this.
Proof.
  apply (X13_retries_exhausted 250000 100000
           [false; true; false; false; true; false] [true; false]).
  vm_compute. lia.
Defined.

End sessions.

(** ** The worker *)

Section worker.
Import JS Sha1.

Lemma slice_webkit (oFile : jsstring) (o c : Z) :
  0 ≤ o → 0 < c →
  Worker.sliceFile true oFile o c = take (Z.to_nat c) (drop (Z.to_nat o) oFile).
Proof.
  intros Ho Hc. unfold Worker.sliceFile, Worker.slice.
  replace (o <? 0) with false by lia. replace (o + c <? 0) with false by lia.
  destruct (decide (Z.of_nat (length oFile) ≤ o)) as [Hge|Hlt].
  - rewrite !drop_ge by lia. by rewrite !take_nil.
  - replace (Z.to_nat (o `min` Z.of_nat (length oFile))) with (Z.to_nat o) by lia.
    destruct (decide (o + c ≤ Z.of_nat (length oFile))) as [Hin|Hout].
    + f_equal. lia.
    + rewrite !take_ge; [done|rewrite length_drop; lia..].
Qed.

Lemma feed_new_fed s : feed s false new = Normal (fed s).
Proof. unfold feed. cbn. by rewrite prototype_feed_new. Qed.

Lemma feed_fed m s : is_binary m → feed s false (fed m) = Normal (fed (m ++ s)).
Proof.
  intros Hm. unfold feed.
  replace (feed_replaced (fed m)) with false by (by destruct m).
  by rewrite prototype_feed_fed.
Qed.

Lemma digest_single s bRaw :
  is_binary s → digest [s] bRaw = Normal (finalize bRaw (fed s)).1.
Proof.
  intros Hs. rewrite digest_fed by (by repeat constructor).
  cbn [concat]. by rewrite app_nil_r.
Qed.

Lemma responsesFrom_spec (oFile : jsstring) (c : Z) (fuel : nat) :
  is_binary oFile → 0 < c →
  ∀ o k q f,
    0 ≤ o → (0 < fuel)%nat → Z.of_nat (length oFile) - o < Z.of_nat fuel →
    let this := Uploader.File o c (Z.of_nat (length oFile)) k q f in
    ∃ l, Worker.responsesFrom fuel true oFile this (fed (take (Z.to_nat o) oFile))
         = Some (Normal l) ∧
         Uploader.planFrom fuel this = Some (Worker.descriptor <$> l) ∧
         concat (Worker.binary <$> l) = drop (Z.to_nat o) oFile ∧
         Forall (hashed oFile c) l ∧
         covers o (part <$> l) (drop (Z.to_nat o) oFile) ∧
         Forall (λ r, Worker.offset r < Z.of_nat (length oFile)) l ∧
         (o < Z.of_nat (length oFile) →
          ∃ l' r h, l = l' ++ [r] ∧
                    Forall (λ r, Worker.entire_size r = None) l' ∧
                    Worker.entire_size r = Some (Z.of_nat (length oFile)) ∧
                    Worker.entire_hash r = Some h).
Proof.
  intros HF Hc. induction fuel as [|fuel IH]; intros o k q f Ho Hfuel Hlt; [lia|].
  cbv zeta. cbn [Worker.responsesFrom Uploader.planFrom].
  unfold Uploader.processNextChunk.
  cbn [Uploader.nOffset Uploader.nChunksize Uploader.oFile_size
       Uploader.nRetriesLeft Uploader.oRequest Uploader.bFinished].
  destruct (Z.geb_spec o (Z.of_nat (length oFile))) as [Hend|Hmore].
  - exists []. rewrite drop_ge by lia. repeat split; [constructor|constructor|lia].
  - set (sBinary := take (Z.to_nat c) (drop (Z.to_nat o) oFile)).
    assert (Hbin : is_binary sBinary) by (by apply Forall_take, Forall_drop).
    assert (Hpre : is_binary (take (Z.to_nat o) oFile)) by (by apply Forall_take).
    assert (Hnext : take (Z.to_nat o) oFile ++ sBinary
                    = take (Z.to_nat (o + c)) oFile).
    { unfold sBinary. rewrite take_take_drop. f_equal. lia. }
    unfold Worker.onmessage.
    cbn [Uploader.file_size Uploader.chunkSize Uploader.offset Uploader.last].
    rewrite slice_webkit by lia. fold sBinary.
    rewrite feed_new_fed, feed_fed, Hnext by done. cbn [bind].
    destruct (finalize false (fed sBinary)) as [sHash oChunk] eqn:Hchunk.
    assert (HsHash : digest [sBinary] false = Normal sHash)
      by (by rewrite digest_single, Hchunk by done).
    assert (Hsize : Z.of_nat (length sBinary)
                    = Z.min c (Z.of_nat (length oFile) - o))
      by (unfold sBinary; rewrite length_take, length_drop; lia).
    assert (Hne : sBinary ≠ []) by (intros E; rewrite E in Hsize; cbn in Hsize; lia).
    destruct (Z.geb_spec (o + c) (Z.of_nat (length oFile))) as [Hlast|Hnot].
    + rewrite take_ge by lia.
      destruct (finalize false (fed oFile)) as [sEntire oWhole] eqn:Hwhole.
      assert (HsEntire : digest [oFile] false = Normal sEntire)
        by (by rewrite digest_single, Hwhole by done).
      destruct fuel as [|fuel]; [lia|].
      cbn [Worker.responsesFrom Uploader.planFrom].
      unfold Uploader.processNextChunk.
      cbn [Uploader.nOffset Uploader.nChunksize Uploader.oFile_size].
      replace (o + c >=? Z.of_nat (length oFile)) with true by lia.
      eexists. split; [reflexivity|]. cbn [fmap list_fmap option_fmap option_map].
      split; [done|]. split.
      { cbn [concat Worker.binary]. rewrite app_nil_r. unfold sBinary.
        rewrite take_ge; [done|rewrite length_drop; lia]. }
      split.
      { repeat constructor; cbn; try done. by intros h [= <-]. }
      split.
      { cbn. split; [done|]. split; [done|]. exists []. split; [|done].
        rewrite app_nil_r. unfold sBinary.
        rewrite take_ge; [done|rewrite length_drop; lia]. }
      split; [repeat constructor; cbn; lia|].
      intros _. eexists [], _, _. split; [reflexivity|]. by repeat split.
    + destruct (IH (o + c) k q f)
        as (l & Hl & Hplan & Hcat & Hall & Hcov & Hoff & Hlastl); [lia|lia|lia|].
      cbv zeta in Hl, Hplan. rewrite Hl, Hplan.
      eexists. split; [reflexivity|]. cbn [fmap list_fmap option_fmap option_map].
      split; [done|]. split.
      { cbn [concat Worker.binary]. rewrite Hcat. unfold sBinary.
        replace (Z.to_nat (o + c)) with (Z.to_nat o + Z.to_nat c)%nat by lia.
        by rewrite <- drop_drop, take_drop. }
      split.
      { constructor; [|done]. repeat split; cbn; try done. }
      split.
      { cbn. split; [done|]. split; [done|].
        exists (drop (Z.to_nat (o + c)) oFile). split.
        - unfold sBinary.
          replace (Z.to_nat (o + c)) with (Z.to_nat o + Z.to_nat c)%nat by lia.
          by rewrite <- drop_drop, take_drop.
        - replace (o + Z.of_nat (length sBinary)) with (o + c) by lia. done. }
      split; [constructor; [cbn; lia|done]|].
      intros _. destruct (Hlastl ltac:(lia)) as (l' & r & h & -> & Hl' & Hr & Hh).
      eexists (_ :: l'), r, h. split; [reflexivity|].
      split; [by constructor|]. done.
Qed.

(** X14. For every binary file and chunk size, in the browser the library
    supports ([webkitSlice]), the worker answers the messages of a session
    with the planned chunks: each response carries the bytes of its range
    of the file, their number as size and their own digest; the ranges
    concatenate to the file; and the last response carries the digest of
    the whole file, computed incrementally over the chunks. *)
Theorem X14_worker_hashes (oFile : jsstring) (chunkSize : Z) :
  is_binary oFile → 0 < chunkSize →
  ∃ l, Worker.responses true oFile chunkSize = Some (Normal l) ∧
       Uploader.plan (Z.of_nat (length oFile)) chunkSize
       = Some (Worker.descriptor <$> l) ∧
       concat (Worker.binary <$> l) = oFile ∧
       Forall (hashed oFile chunkSize) l ∧
       (oFile ≠ [] →
        ∃ r h, last l = Some r ∧ Worker.entire_hash r = Some h ∧
               digest [oFile] false = Normal h).
Proof.
  intros HF Hc.
  destruct (responsesFrom_spec oFile chunkSize (S (length oFile)) HF Hc
              0 3 None false) as (l & Hl & Hplan & Hcat & Hall & _ & _ & Hlast);
    [lia|lia|lia|].
  exists l. split; [exact Hl|]. split.
  { unfold Uploader.plan. rewrite Nat2Z.id. exact Hplan. }
  split; [exact Hcat|]. split; [done|].
  intros Hne. pose proof (length_pos oFile Hne).
  destruct (Hlast ltac:(lia)) as (l' & r & h & -> & _ & _ & Hh).
  exists r, h. split; [apply last_snoc|]. split; [done|].
  rewrite Forall_forall in Hall.
  destruct (Hall r) as (_ & _ & _ & Hent); [|by apply Hent].
  apply elem_of_app. right. by left.
Qed.

Lemma X14_worker_hashes_witness :
  ∃ l, Worker.responses true (replicate 150 65) 64 = Some (Normal l) ∧
       Uploader.plan (Z.of_nat (length (replicate 150 65))) 64
       = Some (Worker.descriptor <$> l) ∧
       concat (Worker.binary <$> l) = replicate 150 65 ∧
       Forall (hashed (replicate 150 65) 64) l ∧
       (replicate 150 65 ≠ [] →
        ∃ r h, last l = Some r ∧ Worker.entire_hash r = Some h ∧
               digest [replicate 150 65] false = Normal h).
Proof.
  apply (X14_worker_hashes (replicate 150 65) 64); [|lia].
  apply Forall_replicate. lia.
Defined.

End worker.

(** ** Sessions of the receiving script *)

Section sessions.
Import Receiver.

Lemma upload_chunk_ok cmp sha1 r fs :
  strtolower (sha1 (tmp r)) = strtolower (hash r) →
  entire_hash r = None →
  upload cmp sha1 r fs =
    (Status200,
     <[guid r := move_uploaded_file (tmp r) (target_name (name r) (offset r))
                   (default ∅ (fs !! guid r))]> fs).
Proof.
  intros Hh He. unfold upload, sha1_hash_file, move_uploaded_file.
  rewrite lookup_insert_eq. cbn [fmap option_fmap option_map].
  rewrite Hh, String.eqb_refl, He. done.
Qed.

Lemma clear_directory_singleton cmp e (d : directory) v :
  numeral e = false →
  d !! e = Some v → clear_directory cmp e d = {[e := v]}.
Proof.
  intros Hnum Hv. apply map_eq. intros k. unfold clear_directory.
  destruct (decide (k = e)) as [->|Hne].
  - rewrite lookup_singleton_eq. apply map_lookup_filter_Some.
    split; [done|]. cbn. by apply loose_eq_l.
  - rewrite lookup_singleton_ne by done.
    apply map_lookup_filter_None. right. intros x _. cbn.
    rewrite loose_eq_l by done. by intros ->.
Qed.

Lemma upload_final_ok cmp sha1 r fs e source :
  numeral (name r) = false →
  strtolower (sha1 (tmp r)) = strtolower (hash r) →
  entire_hash r = Some e →
  combine_chunks cmp (name r)
    (move_uploaded_file (tmp r) (target_name (name r) (offset r))
       (default ∅ (fs !! guid r))) !! name r = Some source →
  strtolower (sha1 source) = strtolower e →
  upload cmp sha1 r fs = (Status200, <[guid r := {[name r := source]}]> fs).
Proof.
  intros Hnum Hh He Hc Hs. unfold upload, sha1_hash_file.
  unfold move_uploaded_file at 1 2.
  rewrite lookup_insert_eq. cbn [fmap option_fmap option_map].
  rewrite Hh, String.eqb_refl, He. cbn [negb].
  rewrite Hc. cbn [fmap option_fmap option_map].
  rewrite Hs, String.eqb_refl. cbn [negb].
  rewrite !insert_insert_eq.
  by rewrite (clear_directory_singleton _ _ _ source).
Qed.

Lemma session_app cmp sha1 rs1 rs2 fs :
  session cmp sha1 (rs1 ++ rs2) fs =
    ((session cmp sha1 rs1 fs).1
     ++ (session cmp sha1 rs2 (session cmp sha1 rs1 fs).2).1,
     (session cmp sha1 rs2 (session cmp sha1 rs1 fs).2).2).
Proof.
  revert fs. induction rs1 as [|r rs1 IH]; intros fs; cbn [app session fst snd].
  - by destruct (session cmp sha1 rs2 fs).
  - destruct (upload cmp sha1 r fs) as [s fs1]. rewrite IH.
    destruct (session cmp sha1 rs1 fs1) as [st1 fs2]. cbn [fst snd].
    by destruct (session cmp sha1 rs2 fs2).
Qed.

Lemma session_chunks cmp sha1 g n pre rs :
  Forall2 (carries sha1 g n) pre rs →
  Forall (λ r, entire_hash r = None) rs →
  ∀ fs, ∃ fs',
    session cmp sha1 rs fs = (replicate (length rs) Status200, fs') ∧
    default ∅ (fs' !! g) = persist n pre (default ∅ (fs !! g)) ∧
    ∀ D, <[g := D]> fs' = <[g := D]> fs.
Proof.
  induction 1 as [|x r pre rs (Hg & Hn & Ho & Ht & Hh) _ IH]; intros Hnone fs.
  - exists fs. done.
  - apply Forall_cons in Hnone as [He Hnone].
    cbn [session]. rewrite (upload_chunk_ok cmp sha1 r fs Hh He).
    rewrite Hg, Hn, Ho, Ht.
    destruct (IH Hnone
      (<[g := move_uploaded_file x.2 (target_name n (Uploader.decimal x.1))
                (default ∅ (fs !! g))]> fs)) as (fs' & -> & Hdir & Hoff).
    exists fs'. split; [done|]. split.
    + rewrite Hdir, lookup_insert_eq. cbn [default]. by destruct x.
    + intros D. by rewrite Hoff, insert_insert_eq.
Qed.

Lemma covers_nonempty lo chunks source :
  covers lo chunks source → Forall (λ x : Z * list Z, x.2 ≠ []) chunks.
Proof.
  revert lo source. induction chunks as [|[o c] chunks IH]; intros lo source.
  - constructor.
  - intros (_ & Hc & rest & _ & Hrest). constructor; [done|]. by eapply IH.
Qed.

Lemma persist_snoc n pre x d :
  persist n (pre ++ [x]) d
  = move_uploaded_file x.2 (target_name n (Uploader.decimal x.1)) (persist n pre d).
Proof. unfold persist. rewrite foldl_snoc. by destruct x. Qed.

Lemma session_reassembles cmp sha1 g n source chunks x pre rs r e fs :
  numeral n = false →
  covers 0 (chunks ++ [x]) source →
  Forall (λ x, x.1 < 10 ^ 15) (chunks ++ [x]) →
  pre ≡ₚ chunks →
  Forall2 (carries sha1 g n) pre rs →
  Forall (λ r, entire_hash r = None) rs →
  carries sha1 g n x r →
  entire_hash r = Some e →
  strtolower (sha1 source) = strtolower e →
  fs !! g = None →
  session cmp sha1 (rs ++ [r]) fs
  = (replicate (S (length rs)) Status200, <[g := {[n := source]}]> fs).
Proof.
  intros Hnum Hcov Hmax Hperm Hrs Hnone (Hg & Hn & Ho & Ht & Hh) He Hs Hfs.
  destruct (session_chunks cmp sha1 g n pre rs Hrs Hnone fs)
    as (fs' & Hrun & Hdir & Hoff).
  rewrite Hfs in Hdir. cbn [default] in Hdir.
  destruct (covers_spec _ _ _ Hcov) as (Hmin & Hsorted & Hcat).
  assert (Hrange : Forall (λ x, 0 ≤ x.1 < 10 ^ 15) (chunks ++ [x])).
  { rewrite Forall_forall in Hmin, Hmax |- *. intros y Hy.
    split; [by apply Hmin|by apply Hmax]. }
  assert (Hcomb : combine_chunks cmp n (persist n (pre ++ [x]) ∅) !! n = Some source).
  { rewrite <- Hcat. apply combine_persisted; [done|done|done|]. by rewrite Hperm. }
  rewrite session_app, Hrun. cbn [fst snd session].
  rewrite (upload_final_ok cmp sha1 r fs' e source).
  - rewrite Hg, Hn, Hoff. f_equal.
    change (S (length rs)) with (1 + length rs)%nat.
    rewrite Nat.add_comm, replicate_add. done.
  - by rewrite Hn.
  - done.
  - done.
  - rewrite Hg, Hn, Ho, Ht, Hdir, <- persist_snoc. exact Hcomb.
  - done.
Qed.

(** X15. A session of the script, for an upload whose name is not numeric:
    it has a character that no numeric string has.  The chunks cover the
    source and have offsets below 10^15; the submissions carry them under
    one guid and the file name, each with the digest of its bytes (compared
    without case); only the last submission, for the last chunk, has the
    digest of the whole file, and the others may arrive in any order.  When
    the session's directory does not exist yet, every submission is
    answered with status 200 and afterwards the directory holds one file,
    named as the upload, whose contents are the source; other directories
    are untouched. *)
Theorem X15_session_reassembles
    (compare_numerals : string → string → comparison) (sha1 : list Z → string)
    (g n : string) (source : list Z) (chunks : list (Z * list Z))
    (x : Z * list Z) (pre : list (Z * list Z)) (rs : list submission)
    (r : submission) (e : string) (fs : filesystem) :
  numeral n = false →
  covers 0 (chunks ++ [x]) source →
  Forall (λ x, x.1 < 10 ^ 15) (chunks ++ [x]) →
  pre ≡ₚ chunks →
  Forall2 (carries sha1 g n) pre rs →
  Forall (λ r, entire_hash r = None) rs →
  carries sha1 g n x r →
  entire_hash r = Some e →
  strtolower (sha1 source) = strtolower e →
  fs !! g = None →
  session compare_numerals sha1 (rs ++ [r]) fs
  = (replicate (S (length rs)) Status200, <[g := {[n := source]}]> fs).
Proof. apply session_reassembles. Qed.

Lemma X15_session_reassembles_witness :
  let sub o c e :=
    {| guid := "0123456789ABCDEF"; offset := o; hash := sha1_hex (str c);
       entire_hash := e; name := "file.bin"; tmp := str c |} in
  session by_value sha1_hex
    ([sub "3" "def" None; sub "0" "abc" None]
     ++ [sub "6" "gh" (Some "425AF12A0743502B322E93A015BCF868E324D56A")]) ∅
  = (replicate 3 Status200,
     <["0123456789ABCDEF" := {["file.bin" := str "abcdefgh"]}]> ∅).
Proof.
  intros sub.
  apply (X15_session_reassembles by_value sha1_hex "0123456789ABCDEF"
           "file.bin" (str "abcdefgh") [(0, str "abc"); (3, str "def")]
           (6, str "gh") [(3, str "def"); (0, str "abc")]
           [sub "3" "def" None; sub "0" "abc" None]
           (sub "6" "gh" (Some "425AF12A0743502B322E93A015BCF868E324D56A"))
           "425AF12A0743502B322E93A015BCF868E324D56A" ∅).
  - reflexivity.
  - cbn. split; [done|]. split; [done|]. eexists. split; [reflexivity|].
    split; [done|]. split; [done|]. eexists. split; [reflexivity|].
    split; [done|]. split; [done|]. eexists. split; reflexivity.
  - repeat constructor.
  - apply Permutation_swap.
  - constructor; [|constructor; [|constructor]];
      (split; [reflexivity|]); (split; [reflexivity|]); (split; [reflexivity|]);
      (split; [reflexivity|]); vm_compute; reflexivity.
  - constructor; [reflexivity|]. constructor; [reflexivity|]. constructor.
  - (split; [reflexivity|]); (split; [reflexivity|]); (split; [reflexivity|]);
      (split; [reflexivity|]); vm_compute; reflexivity.
  - reflexivity.
  - vm_compute. reflexivity.
  - reflexivity.
Defined.

End sessions.

(** ** From the page to the script *)

Section end_to_end.
Import Receiver.

Lemma request_carries sha1 sName sGuid oFile c r :
  (∀ m, is_binary m → m ≠ [] → sha1 m = sha1_hex m) →
  is_binary oFile → hashed oFile c r → Worker.binary r ≠ [] →
  carries sha1 sGuid sName (part r) (Request.getData (Request.new sName sGuid r)).
Proof.
  intros Hsha HF (Hbin & _ & Hhash & _) Hne.
  repeat split. cbn.
  rewrite Hsha; [|rewrite Hbin; by apply Forall_take, Forall_drop|done].
  unfold sha1_hex. by rewrite Hhash.
Qed.

(** X16. From the page to the script, in the browser the library supports
    ([sliceFile] uses [webkitSlice]) and for a file whose name has no
    directory part and is not numeric: it has a character that no numeric
    string has.  For a
    non-empty binary file of at most 10^15 bytes and a positive chunk size,
    when the script's SHA-1 agrees with the page's on non-empty byte
    strings, the session's directory does not exist yet and the fields of
    every request arrive as sent: the requests built from the worker's
    responses are all answered with status 200, and afterwards the
    session's directory holds one file, named as the upload, whose contents
    are the bytes of the file. *)
Theorem X16_upload_end_to_end
    (compare_numerals : string → string → comparison) (sha1 : list Z → string)
    (sName sGuid : string) (oFile : jsstring) (chunkSize : Z) (fs : filesystem) :
  Request.is_basename sName = true → numeral sName = false →
  is_binary oFile → oFile ≠ [] → Z.of_nat (length oFile) ≤ 10 ^ 15 →
  0 < chunkSize →
  (∀ m, is_binary m → m ≠ [] → sha1 m = sha1_hex m) →
  fs !! sGuid = None →
  ∃ l, Worker.responses true oFile chunkSize = Some (Normal l) ∧
       session compare_numerals sha1
         ((λ r, Request.getData (Request.new sName sGuid r)) <$> l) fs
       = (replicate (length l) Status200, <[sGuid := {[sName := oFile]}]> fs).
Proof.
  intros _ Hnum HF Hne Hmax Hc Hsha Hfs. pose proof (length_pos oFile Hne) as Hpos.
  destruct (responsesFrom_spec oFile chunkSize (S (length oFile)) HF Hc
              0 3 None false)
    as (l & Hl & _ & _ & Hall & Hcov & Hoff & Hlast); [lia|lia|lia|].
  destruct (Hlast ltac:(lia)) as (l' & r & h & -> & Hl' & Hsize & Hh).
  exists (l' ++ [r]). split; [exact Hl|].
  change (drop (Z.to_nat 0) oFile) with oFile in Hcov.
  rewrite fmap_app in Hcov. cbn [fmap list_fmap] in Hcov.
  assert (Hcarry : Forall (λ r, carries sha1 sGuid sName (part r)
                                  (Request.getData (Request.new sName sGuid r)))
                     (l' ++ [r])).
  { apply covers_nonempty in Hcov.
    change [part r] with (part <$> [r]) in Hcov.
    rewrite <- fmap_app, Forall_fmap in Hcov.
    rewrite Forall_forall in Hall, Hcov |- *. intros r' Hr'.
    apply (request_carries sha1 sName sGuid oFile chunkSize); auto.
    by apply (Hcov r'). }
  rewrite Forall_app, Forall_singleton in Hcarry, Hall.
  destruct Hcarry as [Hpre Hr]. destruct Hall as [_ (_ & _ & _ & Hent)].
  specialize (Hent h Hh).
  rewrite fmap_app, length_app. cbn [fmap list_fmap length].
  rewrite Nat.add_1_r,
    <- (length_fmap (λ r, Request.getData (Request.new sName sGuid r)) l').
  apply (session_reassembles compare_numerals sha1 sGuid sName oFile
           (part <$> l') (part r) (part <$> l') _ _ (to_string h)).
  - exact Hnum.
  - exact Hcov.
  - change [part r] with (part <$> [r]). rewrite <- fmap_app, Forall_fmap.
    eapply Forall_impl; [exact Hoff|]. intros r' Hr'. cbn in *. lia.
  - done.
  - apply Forall2_fmap, Forall_Forall2_diag. exact Hpre.
  - rewrite Forall_fmap. eapply Forall_impl; [exact Hl'|].
    intros r' Hr'. cbn. by rewrite Hr'.
  - exact Hr.
  - cbn. rewrite Hsize, Hh.
    replace (Z.of_nat (length oFile) =? 0) with false by lia.
    by destruct h.
  - rewrite Hsha by done. unfold sha1_hex. by rewrite Hent.
  - exact Hfs.
Qed.

Lemma X16_upload_end_to_end_witness :
  ∃ l, Worker.responses true (replicate 150 65) 64 = Some (Normal l) ∧
       session by_value sha1_hex
         ((λ r, Request.getData (Request.new "file.bin" "0123456789ABCDEF" r)) <$> l) ∅
       = (replicate (length l) Status200,
          <["0123456789ABCDEF" := {["file.bin" := replicate 150 65]}]> ∅).
Proof.
  apply (X16_upload_end_to_end by_value sha1_hex "file.bin" "0123456789ABCDEF"
           (replicate 150 65) 64 ∅).
  - reflexivity.
  - reflexivity.
  - apply Forall_replicate. lia.
  - discriminate.
  - cbn. lia.
  - lia.
  - reflexivity.
  - reflexivity.
Defined.

End end_to_end.

(** ** Sending a chunk again, and combining onto an existing file *)

Section resend.
Import Receiver.



Lemma persist_onto name arrivals old :
  persist name arrivals {[name := old]}
  = <[name := old]> (persist name arrivals ∅).
Proof.
  induction arrivals as [|x arrivals IH] using rev_ind.
  - cbn. by rewrite insert_empty.
  - rewrite !persist_snoc, IH. unfold move_uploaded_file.
    apply insert_insert_ne, target_name_ne.
Qed.

Lemma combine_onto cmp name chunks arrivals old :
  numeral name = false →
  Forall (λ x, 0 ≤ x.1 < 10 ^ 15) chunks →
  StronglySorted (λ x y : Z * list Z, x.1 < y.1) chunks →
  arrivals ≡ₚ chunks →
  combine_chunks cmp name (persist name arrivals {[name := old]}) !! name
  = Some (if decide (length chunks = 1%nat) then concat (chunks.*2)
          else old ++ concat (chunks.*2)).
Proof.
  intros Hnum Hrange Hsorted Hperm.
  destruct (fname_sorted name chunks Hrange Hsorted) as [HF Hnodup].
  rewrite persist_onto, persist_list_to_map.
  set (L := reverse ((λ x, (fname name x, x.2)) <$> arrivals)).
  assert (HL : L ≡ₚ (λ x, (fname name x, x.2)) <$> chunks).
  { unfold L. by rewrite reverse_Permutation, Hperm. }
  assert (HL1 : L.*1 ≡ₚ fname name <$> chunks).
  { rewrite HL, <- list_fmap_compose. done. }
  assert (HLnd : NoDup L.*1) by (by rewrite HL1).
  set (dir0 := list_to_map L : directory).
  assert (Hname0 : dir0 !! name = None).
  { apply not_elem_of_list_to_map_1. rewrite HL1, list_elem_of_fmap.
    intros (x & Hx & _). by apply (target_name_ne name (Uploader.decimal x.1)). }
  set (dir := <[name := old]> dir0).
  assert (Hdir : ∀ x, x ∈ chunks → dir !! fname name x = Some x.2).
  { intros x Hx. unfold dir.
    rewrite lookup_insert_ne by (apply not_eq_sym, target_name_ne).
    apply elem_of_list_to_map_1; [done|].
    rewrite HL. apply list_elem_of_fmap. by exists x. }
  assert (Hname : dir !! name = Some old) by apply lookup_insert_eq.
  assert (Hscan : filter (λ f, loose_eq cmp name f = false) (scandir dir)
                  ≡ₚ fname name <$> chunks).
  { unfold scandir, dir. rewrite map_to_list_insert by done.
    cbn [fmap list_fmap fst].
    rewrite filter_cons_False
      by (by rewrite (proj2 (loose_eq_l cmp name name Hnum) eq_refl)).
    unfold dir0. rewrite map_to_list_to_map by done. rewrite HL1.
    rewrite filter_all; [done|]. rewrite Forall_fmap. apply Forall_forall.
    intros x _. cbn. apply not_true_is_false. rewrite loose_eq_l by done.
    apply not_eq_sym, target_name_ne. }
  pose proof (Permutation_length Hscan) as Hlen. rewrite length_fmap in Hlen.
  unfold combine_chunks.
  destruct (filter (λ f, loose_eq cmp name f = false) (scandir dir))
    as [|f1 [|f2 fl]] eqn:Hfl.
  - apply Permutation_nil_l in Hscan. symmetry in Hscan.
    apply fmap_nil_inv in Hscan as ->. cbn. rewrite Hname.
    rewrite lookup_insert_eq. cbn. by rewrite app_nil_r.
  - apply Permutation_singleton_l in Hscan.
    destruct chunks as [|x [|? ?]]; try discriminate Hscan.
    injection Hscan as ->. rewrite (Hdir x) by left.
    rewrite lookup_insert_eq. cbn. by rewrite app_nil_r.
  - assert (Hsort : sort cmp (f1 :: f2 :: fl) = fname name <$> chunks).
    { rewrite sort_bytewise.
      - apply (StronglySorted_unique String.le).
        + apply StronglySorted_merge_sort; apply _.
        + done.
        + by rewrite merge_sort_Permutation.
      - rewrite Hscan, Forall_fmap. apply Forall_forall.
        intros x _. by apply numeral_target_name. }
    rewrite Hsort, Hname, lookup_insert_eq. cbn [default].
    rewrite foldl_contents by done.
    destruct (decide (length chunks = 1%nat)) as [E|_]; [|done].
    cbn [length] in Hlen. lia.
Qed.

(** X18. Combining onto an existing file, for an upload whose name is not
    numeric: it has a character that no numeric string has.  When the
    session's directory already holds a file named as the upload, besides
    the chunks that cover the source: with one chunk the chunk is renamed
    and replaces the file; otherwise the file is opened for appending and
    the chunks are written, in the order of their offsets, after its old
    contents. *)
Theorem X18_combine_appends
    (compare_numerals : string → string → comparison) (name : string)
    (source old : list Z) (chunks arrivals : list (Z * list Z)) :
  numeral name = false →
  covers 0 chunks source →
  Forall (λ x, x.1 < 10 ^ 15) chunks →
  arrivals ≡ₚ chunks →
  combine_chunks compare_numerals name
    (persist name arrivals {[name := old]}) !! name
  = Some (if decide (length chunks = 1%nat) then source else old ++ source).
Proof.
  intros Hnum Hcov Hmax Hperm.
  destruct (covers_spec _ _ _ Hcov) as (Hmin & Hsorted & Hcat).
  assert (Hrange : Forall (λ x, 0 ≤ x.1 < 10 ^ 15) chunks).
  { rewrite Forall_forall in Hmin, Hmax |- *. intros x Hx.
    split; [by apply Hmin|by apply Hmax]. }
  rewrite <- Hcat. by apply combine_onto.
Qed.

Lemma X18_combine_appends_witness :
  combine_chunks by_value "file.bin"
    (persist "file.bin" [(3, str "def"); (0, str "abc")]
       {["file.bin" := str "xyz"]}) !! "file.bin"
  = Some (if decide (length [(0, str "abc"); (3, str "def")] = 1%nat)
          then str "abcdef" else str "xyz" ++ str "abcdef").
Proof.
  apply (X18_combine_appends by_value "file.bin" (str "abcdef") (str "xyz")
           [(0, str "abc"); (3, str "def")] [(3, str "def"); (0, str "abc")]).
  - reflexivity.
  - cbn. split; [done|]. split; [done|]. eexists. split; [reflexivity|].
    split; [done|]. split; [done|]. eexists. split; reflexivity.
  - repeat constructor.
  - apply Permutation_swap.
Defined.

End resend.

(** ** The standard [slice] *)

Section standard_slice.

(** X19. Where the file has a [slice] method, taking a start and an end as
    [webkitSlice] does, [sliceFile] passes the chunk length as the end: the
    blob holds the bytes from the offset up to position [nLength] of the
    file, and is empty for every chunk whose offset is not below the chunk
    length. *)
Theorem X19_standard_slice (oFile : jsstring) (nOffset nLength : Z) :
  0 ≤ nOffset → 0 ≤ nLength →
  Worker.sliceFile false oFile nOffset nLength
  = take (Z.to_nat (nLength - nOffset)) (drop (Z.to_nat nOffset) oFile) ∧
  (nLength ≤ nOffset → Worker.sliceFile false oFile nOffset nLength = []).
Proof.
  intros Ho Hc.
  assert (H : Worker.sliceFile false oFile nOffset nLength
              = take (Z.to_nat (nLength - nOffset)) (drop (Z.to_nat nOffset) oFile)).
  { unfold Worker.sliceFile, Worker.slice.
    replace (nOffset <? 0) with false by lia.
    replace (nLength <? 0) with false by lia.
    destruct (decide (Z.of_nat (length oFile) ≤ nOffset)) as [Hge|Hlt].
    - rewrite !drop_ge by lia. by rewrite !take_nil.
    - replace (Z.to_nat (nOffset `min` Z.of_nat (length oFile)))
        with (Z.to_nat nOffset) by lia.
      destruct (decide (nLength ≤ Z.of_nat (length oFile))) as [Hin|Hout].
      + f_equal. lia.
      + rewrite !take_ge; [done|rewrite length_drop; lia..]. }
  split; [exact H|]. intros Hle. rewrite H.
  replace (Z.to_nat (nLength - nOffset)) with 0%nat by lia. done.
Qed.

Lemma X19_standard_slice_witness :
  Worker.sliceFile false (replicate 150 65) 64 64
  = take (Z.to_nat (64 - 64)) (drop (Z.to_nat 64) (replicate 150 65)) ∧
  (64 ≤ 64 → Worker.sliceFile false (replicate 150 65) 64 64 = []).
Proof. apply (X19_standard_slice (replicate 150 65) 64 64); lia. Defined.

End standard_slice.
